(** * Scripts/check_docs.py: documentation link and legacy-path checker

    A shallow embedding of the script and the properties of its scan.

    Python [str] values are sequences of Unicode code points; they are
    modelled as lists of [N].  [pathlib] paths are absolute POSIX paths,
    modelled by their parts below the root.  What the script obtains from
    the outside world (the file tree, [urllib.parse.unquote], the order in
    which a [set] is iterated) is a field of the record [World]; the calls
    of pathlib that may raise return a [result]. *)

From Stdlib Require Import List NArith ZArith Bool Ascii String Lia.
From Stdlib Require Import Sorted Permutation DecimalString.
Import ListNotations.

Set Implicit Arguments.

(** ** Python strings *)

Module Str.

Local Open Scope N_scope.

Definition char := N.
Definition str := list char.

(** A literal of the source, as code points. *)
Definition py (s : string) : str := map N_of_ascii (list_ascii_of_string s).

Definition eqb (a b : str) : bool :=
  if list_eq_dec N.eq_dec a b then true else false.

Definition is_empty (s : str) : bool :=
  match s with [] => true | _ :: _ => false end.

(** [not l] for a list. *)
Definition is_nil (A : Type) (l : list A) : bool :=
  match l with [] => true | _ :: _ => false end.

Fixpoint takeWhile (p : char -> bool) (s : str) : str :=
  match s with
  | [] => []
  | c :: s' => if p c then c :: takeWhile p s' else []
  end.

Fixpoint dropWhile (p : char -> bool) (s : str) : str :=
  match s with
  | [] => []
  | c :: s' => if p c then dropWhile p s' else s
  end.

(** [str.isspace] on one character, the set [str.strip()] removes. *)
Definition isspace (c : char) : bool :=
  ((9 <=? c) && (c <=? 13)) || ((28 <=? c) && (c <=? 32))
  || (c =? 133) || (c =? 160) || (c =? 5760)
  || ((8192 <=? c) && (c <=? 8202))
  || (c =? 8232) || (c =? 8233) || (c =? 8239) || (c =? 8287) || (c =? 12288).

Definition lstrip (s : str) : str := dropWhile isspace s.
Definition rstrip (s : str) : str := rev (dropWhile isspace (rev s)).

(** [s.strip()] *)
Definition strip (s : str) : str := rstrip (lstrip s).

(** [s.lstrip(c)] for a one-character argument. *)
Definition lstrip_chr (c : char) (s : str) : str :=
  dropWhile (fun x => x =? c) s.

(** [s.startswith(prefix)] *)
Fixpoint startswith (prefix s : str) : bool :=
  match prefix, s with
  | [], _ => true
  | _ :: _, [] => false
  | a :: prefix', b :: s' => (a =? b) && startswith prefix' s'
  end.

(** [s.endswith(suffix)] *)
Definition endswith (suffix s : str) : bool :=
  startswith (rev suffix) (rev s).

(** [sub in s] *)
Fixpoint contains (sub s : str) : bool :=
  startswith sub s
  || match s with [] => false | _ :: s' => contains sub s' end.

(** [s[1:-1]] *)
Definition slice_1_m1 (s : str) : str := removelast (tl s).

(** [s.split(c, 1)[0]] for a one-character separator. *)
Definition split1_head (c : char) (s : str) : str :=
  takeWhile (fun x => negb (x =? c)) s.

(** [s.split(c)] for a one-character separator. *)
Fixpoint split_chr (c : char) (s : str) : list str :=
  match s with
  | [] => [[]]
  | x :: s' =>
      if x =? c then [] :: split_chr c s'
      else match split_chr c s' with
           | [] => [[x]]
           | w :: ws => (x :: w) :: ws
           end
  end.

(** [sep.join(parts)] *)
Fixpoint join (sep : str) (parts : list str) : str :=
  match parts with
  | [] => []
  | [p] => p
  | p :: ps => p ++ sep ++ join sep ps
  end.

(** The line boundaries of [str.splitlines]. *)
Definition is_linebreak (c : char) : bool :=
  ((10 <=? c) && (c <=? 13)) || ((28 <=? c) && (c <=? 30))
  || (c =? 133) || (c =? 8232) || (c =? 8233).

(** [text.splitlines()]: [cur] is the line being read, reversed. *)
Fixpoint splitlines_from (cur : str) (text : str) : list str :=
  match text with
  | [] => match cur with [] => [] | _ :: _ => [rev cur] end
  | c :: rest =>
      if c =? 13 then
        match rest with
        | d :: rest' =>
            if d =? 10 then rev cur :: splitlines_from [] rest'
            else rev cur :: splitlines_from [] rest
        | [] => rev cur :: splitlines_from [] rest
        end
      else if is_linebreak c then rev cur :: splitlines_from [] rest
      else splitlines_from (c :: cur) rest
  end.

Definition splitlines (text : str) : list str := splitlines_from [] text.

(** [str(n)] for a non-negative int. *)
Definition of_nat (n : nat) : str := py (NilEmpty.string_of_uint (Nat.to_uint n)).

(** Comparison of sequences as Python does it: the first difference decides,
    and a proper prefix is smaller. *)
Fixpoint lex_compare (A : Type) (cmp : A -> A -> comparison) (l1 l2 : list A)
  : comparison :=
  match l1, l2 with
  | [], [] => Eq
  | [], _ :: _ => Lt
  | _ :: _, [] => Gt
  | x :: l1', y :: l2' =>
      match cmp x y with
      | Eq => lex_compare cmp l1' l2'
      | c => c
      end
  end.

Definition compare (a b : str) : comparison := lex_compare N.compare a b.

End Str.

Import Str.

(** The code point of an ASCII character of the source. *)
Definition chr (a : ascii) : char := N_of_ascii a.

(** ** The link pattern *)

Module Re.

Local Open Scope char_scope.
Local Open Scope N_scope.

Definition not_chr (c : char) : char -> bool := fun x => negb (x =? c).

(** One attempt of [LINK_RE = \[[^\]]*\]\(([^)]+)\)] at the head of [s]:
    group 1 and the text that follows the match.  Both negated classes are
    greedy and stop at the first character they exclude, which is the
    character the pattern asks for next, so an attempt has one way to match. *)
Definition match_here (s : str) : option (str * str) :=
  match s with
  | c0 :: s1 =>
      if c0 =? chr "[" then
        match dropWhile (not_chr (chr "]")) s1 with
        | c1 :: c2 :: s2 =>
            if (c1 =? chr "]") && (c2 =? chr "(") then
              let target := takeWhile (not_chr (chr ")")) s2 in
              match target, dropWhile (not_chr (chr ")")) s2 with
              | _ :: _, _ :: rest => Some (target, rest)
              | _, _ => None
              end
            else None
        | _ => None
        end
      else None
  | [] => None
  end.

(** [LINK_RE.finditer(line)], as the list of [match.group(1)]: the leftmost
    match is taken, and the search goes on after its last character.
    [skip] counts the characters of the current match still to pass. *)
Fixpoint finditer_skip (skip : nat) (s : str) : list str :=
  match s with
  | [] => []
  | _ :: s' =>
      match skip with
      | S k => finditer_skip k s'
      | O =>
          match match_here s with
          | Some (target, rest) =>
              target :: finditer_skip (List.length s' - List.length rest)%nat s'
          | None => finditer_skip O s'
          end
      end
  end.

Definition finditer (line : str) : list str := finditer_skip O line.

End Re.

(** ** pathlib *)

Module PurePath.

Local Open Scope char_scope.

(** An absolute path, as its parts below the root. *)
Definition Path := list str.

(** The parts of a path string: empty parts and single dots are dropped,
    [..] is kept. *)
Definition parse_parts (s : str) : list str :=
  filter (fun x => negb (is_empty x) && negb (Str.eqb x (py ".")))
         (split_chr (chr "/") s).

(** [base / s] *)
Definition truediv (base : Path) (s : str) : Path :=
  if startswith (py "/") s then parse_parts s else base ++ parse_parts s.

(** [p.parent] *)
Definition parent (p : Path) : Path := removelast p.

(** [p.relative_to(other)]: [None] where Python raises [ValueError]. *)
Fixpoint relative_to (p other : Path) {struct other} : option Path :=
  match other with
  | [] => Some p
  | o :: other' =>
      match p with
      | [] => None
      | x :: p' => if Str.eqb x o then relative_to p' other' else None
      end
  end.

(** [str(rel)] for a relative path. *)
Definition to_str (rel : Path) : str :=
  match rel with
  | [] => py "."
  | _ :: _ => join (py "/") rel
  end.

Definition compare (p q : Path) : comparison := lex_compare Str.compare p q.

(** [p < q] *)
Definition ltb (p q : Path) : bool :=
  match compare p q with Lt => true | _ => false end.

Definition path_eqb (p q : Path) : bool :=
  match compare p q with Eq => true | _ => false end.

(** [sorted(l)]: a stable sort that asks only for [<]. *)
Fixpoint insert (x : Path) (l : list Path) : list Path :=
  match l with
  | [] => [x]
  | y :: l' => if ltb y x then y :: insert x l' else x :: l
  end.

Definition sorted (l : list Path) : list Path := fold_right insert [] l.

End PurePath.

Import Re PurePath.

(** ** Exceptions and standard output *)

Inductive exn : Type := OSError | UnicodeDecodeError | ValueError | RuntimeError.

Inductive result (A : Type) : Type :=
| Return (a : A)
| Raise (e : exn).

Arguments Raise {A} e.

(** What follows a call that may raise. *)
Definition and_then (A B : Type) (r : result A) (k : A -> result B) : result B :=
  match r with
  | Return a => k a
  | Raise e => Raise e
  end.

Notation "x <~ r ;; k" := (and_then r (fun x => k))
  (at level 61, r at next level, right associativity).

(** [for x in l: body], with the variables the body updates as [s]; the
    loop is left at the first exception. *)
Fixpoint for_each (A S : Type) (body : S -> A -> result S) (l : list A) (s : S)
  : result S :=
  match l with
  | [] => Return s
  | x :: l' => and_then (body s x) (for_each body l')
  end.

(** A run: the lines written to standard output so far, and how it ended. *)
Definition IO (A : Type) : Type := (list str * result A)%type.

Definition ret (A : Type) (a : A) : IO A := ([], Return a).

Definition bind (A B : Type) (m : IO A) (f : A -> IO B) : IO B :=
  match m with
  | (out, Raise e) => (out, Raise e)
  | (out, Return a) => let (out', r) := f a in (out ++ out', r)
  end.

Definition lift (A : Type) (r : result A) : IO A := ([], r).

(** [print(line)] *)
Definition print (line : str) : IO unit := ([line], Return tt).

Declare Scope io_scope.
Delimit Scope io_scope with io.
Notation "x <- m ;; k" := (bind m (fun x => k))
  (at level 61, m at next level, right associativity) : io_scope.
Notation "m ;; k" := (bind m (fun _ => k))
  (at level 61, right associativity) : io_scope.

Local Open Scope io_scope.


(** ** The environment of a run *)

(** What a run reads from outside the script.  [glob root pattern] is
    [root.glob(pattern)], in the order the directory scan yields it;
    [set_iter l] is the order in which the [set] built from the sequence [l]
    is iterated.  [exists_] is [Path.exists()] and [resolve] is
    [Path.resolve()], which is not strict: each ends in a value or in the
    exception pathlib lets through (an [OSError] of [stat] that is not among
    the ignored ones, such as a name that is too long; a [ValueError] for an
    embedded NUL; a [RuntimeError] for a loop of symbolic links). *)
Record World : Type := {
  ROOT : Path;
  unquote : str -> str;
  glob : Path -> str -> list Path;
  set_iter : list Path -> list Path;
  is_file : Path -> bool;
  read_text : Path -> result str;
  exists_ : Path -> result bool;
  resolve : Path -> result Path
}.

(** ** The script *)

Definition DOC_GLOBS : list str :=
  [ py "Docs/**/*.md"; py "README.md"; py "CHANGELOG.md"; py "TODO.md";
    py "API_REFERENCE.md"; py "CONTRIBUTING.md"; py "AGENTS.md"; py "WARP.md" ].

Definition SKIP_PREFIXES : list str :=
  [ py "http://"; py "https://"; py "mailto:"; py "tel:"; py "javascript:" ].

(** The dict, in insertion order. *)
Definition LEGACY_PATHS : list (str * str) :=
  [ (py "Views/OnboardingFlowView.swift", py "Views/Onboarding/OnboardingFlowView.swift");
    (py "/Views/OnboardingFlowView.swift", py "Views/Onboarding/OnboardingFlowView.swift");
    (py "Views/SettingsView.swift", py "Views/Settings/SettingsView.swift");
    (py "/Views/SettingsView.swift", py "Views/Settings/SettingsView.swift") ].

(** (file, line number, raw target) *)
Definition MissingLink : Type := (Path * nat * str)%type.

(** (file, line number, legacy path, replacement) *)
Definition LegacyRef : Type := (Path * nat * str * str)%type.

(** The variables of [main] that its loops update. *)
Record Locals : Type := {
  in_code_block : bool;
  missing_links : list MissingLink;
  legacy_refs : list LegacyRef
}.

Definition no_findings : Locals :=
  {| in_code_block := false; missing_links := []; legacy_refs := [] |}.

(** [enumerate(lines, 1)] *)
Definition enumerate1 (lines : list str) : list (nat * str) :=
  combine (seq 1 (List.length lines)) lines.

(** The test of line 80 on a line. *)
Definition is_fence (line : str) : bool :=
  let stripped := strip line in
  startswith (py "```") stripped || startswith (py "~~~") stripped.

Section Script.

Variable w : World.

Definition iter_doc_files : list Path :=
  let files := flat_map (glob w (ROOT w)) DOC_GLOBS in
  sorted (set_iter w (filter (is_file w) files)).

Definition normalize_target (target : str) : option str :=
  let target := strip target in
  if is_empty target then None else
  let target :=
    if startswith (py "<") target && endswith (py ">") target
    then strip (slice_1_m1 target) else target in
  if startswith (py "#") target then None else
  if existsb (fun prefix => startswith prefix target) SKIP_PREFIXES then None else
  let target := strip (split1_head (chr "?") (split1_head (chr "#") target)) in
  if is_empty target then None else
  Some (unquote w target).

Definition resolve_target (base : Path) (target : str) : result Path :=
  if startswith (py "/") target
  then Return (truediv (ROOT w) (lstrip_chr (chr "/") target))
  else resolve w (truediv base target).

(** Lines 86-92: the body of the loop over the links of a line. *)
Definition check_link (path : Path) (line_no : nat)
    (missing : list MissingLink) (raw_target : str) : result (list MissingLink) :=
  match normalize_target raw_target with
  | None => Return missing
  | Some target =>
      candidate <~ resolve_target (parent path) target ;;
      found <~ exists_ w candidate ;;
      if found then Return missing
      else Return (missing ++ [(path, line_no, raw_target)])
  end.

(** Lines 85-92: the loop over the links of a line. *)
Definition check_links (path : Path) (line_no : nat) (line : str)
    (missing : list MissingLink) : result (list MissingLink) :=
  for_each (check_link path line_no) (finditer line) missing.

(** Lines 93-95: the loop over the legacy paths. *)
Definition check_legacy (path : Path) (line_no : nat) (line : str)
    (legacy : list LegacyRef) : list LegacyRef :=
  fold_left
    (fun acc (kv : str * str) =>
       let (legacy_key, replacement) := kv in
       if contains legacy_key line
       then acc ++ [(path, line_no, legacy_key, replacement)]
       else acc)
    LEGACY_PATHS legacy.

(** Lines 79-95: the body of the loop over the lines. *)
Definition scan_line (path : Path) (st : Locals) (numbered : nat * str)
  : result Locals :=
  let (line_no, line) := numbered in
  let stripped := strip line in
  if startswith (py "```") stripped || startswith (py "~~~") stripped then
    Return {| in_code_block := negb (in_code_block st);
              missing_links := missing_links st;
              legacy_refs := legacy_refs st |}
  else if in_code_block st then Return st
  else
    missing <~ check_links path line_no line (missing_links st) ;;
    Return {| in_code_block := in_code_block st;
              missing_links := missing;
              legacy_refs := check_legacy path line_no line (legacy_refs st) |}.

(** Lines 78-95: the loop over the lines. *)
Definition scan_lines (path : Path) (st : Locals) (lines : list (nat * str))
  : result Locals :=
  for_each (scan_line path) lines st.

(** Line 77: [in_code_block = False]. *)
Definition enter_file (st : Locals) : Locals :=
  {| in_code_block := false;
     missing_links := missing_links st;
     legacy_refs := legacy_refs st |}.

(** Lines 77-95: what follows the read of a file. *)
Definition scan_text (path : Path) (text : str) (st : Locals) : result Locals :=
  scan_lines path (enter_file st) (enumerate1 (splitlines text)).

(** Lines 75-95: the loop over the files. *)
Fixpoint scan_files (files : list Path) (st : Locals) : IO Locals :=
  match files with
  | [] => ret st
  | path :: rest =>
      text <- lift (read_text w path) ;;
      st' <- lift (scan_text path text st) ;;
      scan_files rest st'
  end.

(** [path.relative_to(ROOT)] *)
Definition rel_to_root (path : Path) : IO Path :=
  match relative_to path (ROOT w) with
  | Some rel => ret rel
  | None => lift (Raise ValueError)
  end.

Definition missing_line (rel : Path) (line_no : nat) (target : str) : str :=
  py "  - " ++ to_str rel ++ py ":" ++ of_nat line_no ++ py " -> " ++ target.

Definition legacy_line (rel : Path) (line_no : nat) (legacy replacement : str) : str :=
  py "  - " ++ to_str rel ++ py ":" ++ of_nat line_no ++ py " uses " ++ legacy
  ++ py " (use " ++ replacement ++ py ")".

(** Lines 99-101 *)
Fixpoint print_missing (l : list MissingLink) : IO unit :=
  match l with
  | [] => ret tt
  | (path, line_no, target) :: l' =>
      rel <- rel_to_root path ;;
      print (missing_line rel line_no target) ;;
      print_missing l'
  end.

(** Lines 106-108 *)
Fixpoint print_legacy (l : list LegacyRef) : IO unit :=
  match l with
  | [] => ret tt
  | (path, line_no, legacy, replacement) :: l' =>
      rel <- rel_to_root path ;;
      print (legacy_line rel line_no legacy replacement) ;;
      print_legacy l'
  end.

Definition OK_LINE : str :=
  py "Docs check OK: no missing links or legacy onboarding/settings paths.".

(** Lines 97-115 *)
Definition report (missing : list MissingLink) (legacy : list LegacyRef) : IO Z :=
  (if negb (is_nil missing) then
     print (py "Missing documentation links:") ;;
     print_missing missing ;;
     print []
   else ret tt) ;;
  (if negb (is_nil legacy) then
     print (py "Legacy path references:") ;;
     print_legacy legacy ;;
     print []
   else ret tt) ;;
  if negb (is_nil missing) || negb (is_nil legacy) then ret 1%Z
  else
    print OK_LINE ;;
    ret 0%Z.

(** The value [main()] returns is the exit status of the process. *)
Definition main : IO Z :=
  st <- scan_files iter_doc_files no_findings ;;
  report (missing_links st) (legacy_refs st).

End Script.

(** ** What the properties are stated with *)

(** A line is checked when it is no fence line and the fence state before
    it is false; [b] is the fence state before the first line of [lines]. *)
Fixpoint checked_lines (b : bool) (lines : list (nat * str)) : list (nat * str) :=
  match lines with
  | [] => []
  | (line_no, line) :: rest =>
      if is_fence line then checked_lines (negb b) rest
      else if b then checked_lines b rest
      else (line_no, line) :: checked_lines b rest
  end.

(** The fence state after [lines], from the state [b]. *)
Definition fence_after (b : bool) (lines : list str) : bool :=
  fold_left (fun b line => if is_fence line then negb b else b) lines b.

(** Whether the link with this raw target is reported, or the exception its
    check ends in: the link is reported when its target is not discarded and
    resolves to a path for which [exists()] returns [False]. *)
Definition link_check (w : World) (path : Path) (raw_target : str) : result bool :=
  match normalize_target w raw_target with
  | None => Return false
  | Some target =>
      candidate <~ resolve_target w (parent path) target ;;
      found <~ exists_ w candidate ;;
      Return (negb found)
  end.

Definition link_is_missing (w : World) (path : Path) (raw_target : str) : bool :=
  match link_check w path raw_target with
  | Return b => b
  | Raise _ => false
  end.

(** No check of a link of the line raises. *)
Definition line_checks_ok (w : World) (path : Path) (line : str) : Prop :=
  forall raw_target, In raw_target (finditer line) ->
  exists b, link_check w path raw_target = Return b.

Definition line_missing (w : World) (path : Path) (numbered : nat * str)
  : list MissingLink :=
  map (fun raw_target => (path, fst numbered, raw_target))
      (filter (link_is_missing w path) (finditer (snd numbered))).

Definition line_legacy (path : Path) (numbered : nat * str) : list LegacyRef :=
  map (fun kv : str * str => (path, fst numbered, fst kv, snd kv))
      (filter (fun kv : str * str => contains (fst kv) (snd numbered)) LEGACY_PATHS).

(** The findings of one document, line after line. *)
Definition doc_missing (w : World) (path : Path) (text : str) : list MissingLink :=
  flat_map (line_missing w path) (checked_lines false (enumerate1 (splitlines text))).

Definition doc_legacy (path : Path) (text : str) : list LegacyRef :=
  flat_map (line_legacy path) (checked_lines false (enumerate1 (splitlines text))).

(** No check of a link on a checked line of the document raises. *)
Definition doc_checks_ok (w : World) (path : Path) (text : str) : Prop :=
  forall k line,
    In (k, line) (checked_lines false (enumerate1 (splitlines text))) ->
    line_checks_ok w path line.

Definition text_of (w : World) (path : Path) : str :=
  match read_text w path with
  | Return text => text
  | Raise _ => []
  end.







(** The target without the angle brackets that may wrap it. *)
Definition unwrap_angle (t : str) : str :=
  if startswith (py "<") t && endswith (py ">") t then strip (slice_1_m1 t) else t.

(** The target without its fragment and query: what stands before the
    first [#] or [?]. *)
Definition cut_fragment_query (t : str) : str :=
  takeWhile (fun c => negb (N.eqb c (chr "#")) && negb (N.eqb c (chr "?"))) t.

(** [p < q] holds. *)
Definition path_lt (p q : Path) : Prop := ltb p q = true.

(** ** Laws of the environment *)

(** A [set] holds each element of the sequence it is built from once. *)
Definition set_iter_ok (set_iter : list Path -> list Path) : Prop :=
  forall l, NoDup (set_iter l) /\ forall p, In p (set_iter l) <-> In p l.




(** The same file tree, with another order of discovery. *)
Definition with_discovery (w : World)
    (glob' : Path -> str -> list Path) (set_iter' : list Path -> list Path) : World :=
  {| ROOT := ROOT w; unquote := unquote w; glob := glob'; set_iter := set_iter';
     is_file := is_file w; read_text := read_text w; exists_ := exists_ w;
     resolve := resolve w |}.


(** ** A small file tree, for concrete runs *)

Module Example.

Local Open Scope N_scope.

Definition hexval (c : char) : option N :=
  if (48 <=? c) && (c <=? 57) then Some (c - 48)
  else if (65 <=? c) && (c <=? 70) then Some (c - 55)
  else if (97 <=? c) && (c <=? 102) then Some (c - 87)
  else None.

(** Percent-decoding of escapes; it is [urllib.parse.unquote] on strings
    whose escapes are below [%80]. *)
Fixpoint unquote_ascii (s : str) : str :=
  match s with
  | [] => []
  | c :: s1 =>
      match s1 with
      | h :: l :: s3 =>
          if c =? 37 then
            match hexval h, hexval l with
            | Some a, Some b => (16 * a + b) :: unquote_ascii s3
            | _, _ => c :: unquote_ascii s1
            end
          else c :: unquote_ascii s1
      | _ => c :: unquote_ascii s1
      end
  end.

Definition root : Path := [py "repo"].
Definition readme : Path := [py "repo"; py "README.md"].
Definition guide : Path := [py "repo"; py "Docs"; py "guide.md"].

Definition mem (p : Path) (l : list Path) : bool := existsb (path_eqb p) l.

Definition glob_tree (_ : Path) (pattern : str) : list Path :=
  if Str.eqb pattern (py "Docs/**/*.md") then [guide]
  else if Str.eqb pattern (py "README.md") then [readme]
  else [].

(** The same matches in another order, one of them twice. *)
Definition glob_tree_rev (_ : Path) (pattern : str) : list Path :=
  if Str.eqb pattern (py "Docs/**/*.md") then [guide; guide]
  else if Str.eqb pattern (py "README.md") then [readme]
  else [].

Fixpoint dedup (l : list Path) : list Path :=
  match l with
  | [] => []
  | p :: l' => if mem p l' then dedup l' else p :: dedup l'
  end.

Definition set_dedup (l : list Path) : list Path := dedup l.
Definition set_dedup_rev (l : list Path) : list Path := rev (dedup l).

(** [Path.resolve()] on a tree without symbolic links: it folds [..] away,
    and raises [ValueError] for an embedded NUL. *)
Definition resolve_lexical (p : Path) : result Path :=
  if existsb (fun part => existsb (N.eqb 0) part) p then Raise ValueError
  else Return (fold_left (fun acc part =>
                            if Str.eqb part (py "..") then removelast acc
                            else acc ++ [part])
                         p []).

Definition lf : str := [10].

Definition readme_text : str :=
  py "# Title" ++ lf
  ++ py "See [guide](Docs/guide.md) and [gone](./missing-file.md)." ++ lf
  ++ py "[site](https://example.com) [top](#top) [sp](Docs/my%20notes.md)" ++ lf.

Definition guide_text : str :=
  py "[back](../README.md)" ++ lf
  ++ py "```" ++ lf
  ++ py "[x](nowhere.md) Views/SettingsView.swift" ++ lf
  ++ py "```" ++ lf
  ++ py "Old: [text](/Views/OnboardingFlowView.swift)" ++ lf.

Definition read_tree (p : Path) : result str :=
  if path_eqb p readme then Return readme_text
  else if path_eqb p guide then Return guide_text
  else Raise OSError.

(** The paths of the tree. *)
Definition tree : list Path :=
  [ []; root; [py "repo"; py "Docs"]; readme; guide;
    [py "repo"; py "Docs"; py "my notes.md"] ].

(** [Path.exists()] on the tree: for a name of more than 255 characters
    [stat] fails with ENAMETOOLONG, which pathlib lets through. *)
Definition exists_tree (p : Path) : result bool :=
  if existsb (fun part => Nat.ltb 255 (List.length part)) p then Raise OSError
  else Return (mem p tree).

(** A name of 300 characters. *)
Definition long_name : str := repeat (chr "a") 300 ++ py ".md".

Definition world : World :=
  {| ROOT := root; unquote := unquote_ascii; glob := glob_tree; set_iter := set_dedup;
     is_file := fun p => mem p [readme; guide];
     read_text := read_tree; exists_ := exists_tree; resolve := resolve_lexical |}.

(** The guide cannot be decoded. *)
Definition broken_world : World :=
  {| ROOT := root; unquote := unquote_ascii; glob := glob_tree; set_iter := set_dedup;
     is_file := fun p => mem p [readme; guide];
     read_text := fun p => if path_eqb p guide then Raise UnicodeDecodeError
                           else read_tree p;
     exists_ := exists_tree; resolve := resolve_lexical |}.

(** A tree whose documents hold neither a link nor a legacy path. *)
Definition clean_world : World :=
  {| ROOT := root; unquote := unquote_ascii; glob := glob_tree; set_iter := set_dedup;
     is_file := fun p => mem p [readme; guide];
     read_text := fun p => if mem p [readme; guide] then Return (py "# Title" ++ lf)
                           else Raise OSError;
     exists_ := exists_tree; resolve := resolve_lexical |}.

End Example.

(** ** Further vocabulary *)

(** Strings of white space, and strings without any. *)
Definition all_space (ws : str) : Prop := Forall (fun c => isspace c = true) ws.
Definition no_space (s : str) : Prop := Forall (fun c => isspace c = false) s.

(** Lines 54-62: what [normalize_target] does with a target once it is
    trimmed, not empty and free of its angle brackets. *)
Definition normalize_unwrapped (w : World) (u : str) : option str :=
  if startswith (py "#") u then None else
  if existsb (fun prefix => startswith prefix u) SKIP_PREFIXES then None else
  let rest := strip (cut_fragment_query u) in
  if is_empty rest then None else Some (unquote w rest).

(** The number of fence lines among the first [i] lines. *)
Definition fences_before (lines : list str) (i : nat) : nat :=
  List.length (filter is_fence (firstn i lines)).




(** The text [[label](target)]. *)
Definition link_text (label target : str) : str :=
  chr "[" :: label ++ chr "]" :: chr "(" :: target ++ [chr ")"].

(** The small file tree, where each document holds a link to no file and a
    link to a name that is too long. *)
Definition long_link_world : World :=
  {| ROOT := Example.root; unquote := Example.unquote_ascii;
     glob := Example.glob_tree; set_iter := Example.set_dedup;
     is_file := fun p => Example.mem p [Example.readme; Example.guide];
     read_text := fun _ =>
       Return (py "[gone](./missing-file.md) [x](/" ++ Example.long_name ++ py ")");
     exists_ := Example.exists_tree; resolve := Example.resolve_lexical |}.

(** The small file tree, with a read-me that cannot be read. *)
Definition readme_locked_world : World :=
  {| ROOT := Example.root; unquote := Example.unquote_ascii;
     glob := Example.glob_tree; set_iter := Example.set_dedup;
     is_file := fun p => Example.mem p [Example.readme; Example.guide];
     read_text := fun p => if path_eqb p Example.readme then Raise OSError
                           else Example.read_tree p;
     exists_ := Example.exists_tree; resolve := Example.resolve_lexical |}.

(** ** Strings *)

Section StrFacts.

Local Open Scope N_scope.

Variable p : char -> bool.

Lemma dropWhile_app_last (l : str) (c : char) :
  p c = false -> dropWhile p (l ++ [c]) = dropWhile p l ++ [c].
Proof.
  intros Hc. induction l as [|a l IH]; simpl.
  - now rewrite Hc.
  - destruct (p a); [exact IH | reflexivity].
Qed.

Lemma dropWhile_head (s : str) (c : char) (r : str) :
  dropWhile p s = c :: r -> p c = false.
Proof.
  induction s as [|a s IH]; simpl; [discriminate|].
  destruct (p a) eqn:Ha; [exact IH|].
  intros H; inversion H; subst; exact Ha.
Qed.

Lemma takeWhile_dropWhile (s : str) : takeWhile p s ++ dropWhile p s = s.
Proof.
  induction s as [|a s IH]; simpl; [reflexivity|].
  destruct (p a); simpl; [now rewrite IH | reflexivity].
Qed.

Lemma takeWhile_all (s : str) : Forall (fun c => p c = true) (takeWhile p s).
Proof.
  induction s as [|a s IH]; simpl; [constructor|].
  destruct (p a) eqn:Ha; constructor; assumption.
Qed.

Lemma takeWhile_app_stop (l : str) (c : char) (r : str) :
  Forall (fun x => p x = true) l -> p c = false ->
  takeWhile p (l ++ c :: r) = l /\ dropWhile p (l ++ c :: r) = c :: r.
Proof.
  intros Hl Hc. induction Hl as [|a l Ha _ IH]; simpl.
  - now rewrite Hc.
  - rewrite Ha. destruct IH as [-> ->]. split; reflexivity.
Qed.

End StrFacts.

Lemma rstrip_cons (c : char) (s : str) :
  isspace c = false -> rstrip (c :: s) = c :: rstrip s.
Proof.
  intros Hc. unfold rstrip. simpl.
  rewrite dropWhile_app_last by exact Hc.
  now rewrite rev_app_distr.
Qed.

Lemma strip_cons (c : char) (s : str) :
  isspace c = false -> strip (c :: s) = c :: rstrip s.
Proof.
  intros Hc. unfold strip, lstrip. simpl. rewrite Hc. now apply rstrip_cons.
Qed.

(** What [strip] returns does not start with white space. *)
Lemma strip_head (x : str) (c : char) (r : str) :
  strip x = c :: r -> isspace c = false.
Proof.
  unfold strip. destruct (lstrip x) as [|a y] eqn:Hx.
  - discriminate.
  - pose proof (dropWhile_head _ _ Hx) as Ha.
    rewrite rstrip_cons by exact Ha.
    intros H; inversion H; subst; exact Ha.
Qed.

Lemma strip_nil : strip [] = [].
Proof. reflexivity. Qed.

(** On a string that does not start with white space, [strip] gives the
    empty string for the empty string only. *)
Lemma strip_empty_iff (v : str) :
  match v with [] => True | c :: _ => isspace c = false end ->
  strip v = [] <-> v = [].
Proof.
  destruct v as [|c v]; intros H.
  - split; reflexivity.
  - rewrite strip_cons by exact H. split; discriminate.
Qed.

Lemma unwrap_angle_head (x : str) :
  match unwrap_angle (strip x) with [] => True | c :: _ => isspace c = false end.
Proof.
  unfold unwrap_angle.
  destruct (startswith (py "<") (strip x) && endswith (py ">") (strip x)).
  - destruct (strip (slice_1_m1 (strip x))) eqn:H; [exact I|].
    exact (strip_head _ H).
  - destruct (strip x) eqn:H; [exact I|]. exact (strip_head _ H).
Qed.

(** The two [split(..., 1)[0]] of line 59 keep what stands before the first
    [#] or [?]. *)
Lemma split1_head_twice (t : str) :
  split1_head (chr "?") (split1_head (chr "#") t) = cut_fragment_query t.
Proof.
  unfold split1_head, cut_fragment_query.
  induction t as [|a t IH]; cbn [takeWhile]; [reflexivity|].
  destruct (N.eqb a (chr "#")); cbn [negb andb takeWhile]; [reflexivity|].
  destruct (N.eqb a (chr "?")); cbn [negb]; [reflexivity|].
  now rewrite IH.
Qed.

Lemma cut_fragment_query_head (u : str) :
  match u with [] => True | c :: _ => isspace c = false end ->
  match cut_fragment_query u with [] => True | c :: _ => isspace c = false end.
Proof.
  unfold cut_fragment_query.
  destruct u as [|c u]; cbn [takeWhile]; [trivial|]. intros Hc.
  destruct (negb (N.eqb c (chr "#")) && negb (N.eqb c (chr "?"))); [exact Hc | exact I].
Qed.

(** ** Normalisation of a link target *)

(** C3: [normalize_target] returns no value exactly when the trimmed target
    is empty, or the target without its angle brackets starts with [#] or
    with one of the skipped prefixes, or nothing stands before its fragment
    and query; in every other case it returns the percent-decoded rest.  A
    link whose target is discarded adds no finding in the loop of lines
    85-92, and its check raises nothing. *)
Theorem normalize_target_discards (w : World) (target : str) :
  let t := strip target in
  let u := unwrap_angle t in
  (normalize_target w target = None <->
     t = [] \/ startswith (py "#") u = true
     \/ (exists prefix, In prefix SKIP_PREFIXES /\ startswith prefix u = true)
     \/ cut_fragment_query u = [])
  /\ (normalize_target w target <> None ->
      normalize_target w target = Some (unquote w (strip (cut_fragment_query u))))
  /\ (normalize_target w target = None ->
      forall (path : Path) (line_no : nat) (missing : list MissingLink),
        check_link w path line_no missing target = Return missing
        /\ for_each (check_link w path line_no) [target] missing = Return missing).
Proof.
  intros t u.
  match goal with
  | |- ?A /\ ?B /\ _ => enough (Hmain : A /\ B)
  end.
  { destruct Hmain as [Hiff Hsome]. split; [exact Hiff|]. split; [exact Hsome|].
    intros Hnone path line_no missing. cbn [for_each]. unfold check_link.
    rewrite Hnone. split; reflexivity. }
  pose proof (cut_fragment_query_head _ (unwrap_angle_head target)) as Hhead.
  fold t in Hhead. fold u in Hhead.
  pose proof (strip_empty_iff _ Hhead) as Hstrip.
  assert (Hnorm : normalize_target w target =
    if is_empty t then None else
    if startswith (py "#") u then None else
    if existsb (fun prefix => startswith prefix u) SKIP_PREFIXES then None else
    if is_empty (strip (cut_fragment_query u)) then None
    else Some (unquote w (strip (cut_fragment_query u)))).
  { unfold normalize_target. fold t. fold (unwrap_angle t). fold u.
    now rewrite split1_head_twice. }
  rewrite Hnorm. clear Hnorm.
  destruct t as [|c r] eqn:Ht.
  { simpl. split; [split; auto | congruence]. }
  cbn [is_empty].
  destruct (startswith (py "#") u) eqn:Hhash.
  { split; [split; auto | congruence]. }
  destruct (existsb (fun prefix => startswith prefix u) SKIP_PREFIXES) eqn:Hskip.
  { apply existsb_exists in Hskip. split; [split; auto | congruence]. }
  destruct (strip (cut_fragment_query u)) as [|c' r'] eqn:Hrest; cbn [is_empty].
  { split; [split; auto | congruence]. right. right. right. now apply Hstrip. }
  split; [|reflexivity].
  split; [discriminate|].
  intros [H | [H | [H | H]]]; try discriminate.
  - destruct H as [prefix Hp].
    assert (existsb (fun prefix => startswith prefix u) SKIP_PREFIXES = true)
      by (apply existsb_exists; eauto).
    congruence.
  - apply Hstrip in H. discriminate.
Qed.

(** ** The link pattern *)

Section ReFacts.

Local Open Scope N_scope.

(** An attempt matches exactly the texts of the shape [[label](target)]
    with no []] in the label and a non-empty target with no [)]. *)
Lemma match_here_Some (s target rest : str) :
  match_here s = Some (target, rest) <->
  exists label,
    s = chr "[" :: label ++ chr "]" :: chr "(" :: target ++ chr ")" :: rest
    /\ Forall (fun c => c <> chr "]") label
    /\ target <> []
    /\ Forall (fun c => c <> chr ")") target.
Proof.
  assert (Hne : forall c l, Forall (fun x => not_chr c x = true) l <->
                            Forall (fun x => x <> c) l).
  { intros c l.
    split; intros H; induction H; constructor; auto.
    - unfold not_chr in H. apply negb_true_iff, N.eqb_neq in H. exact H.
    - unfold not_chr. now apply negb_true_iff, N.eqb_neq. }
  split.
  - unfold match_here. destruct s as [|c0 s1]; [discriminate|].
    destruct (c0 =? chr "[") eqn:H0; [|discriminate]. apply N.eqb_eq in H0.
    pose proof (takeWhile_dropWhile (not_chr (chr "]")) s1) as Hs1.
    pose proof (takeWhile_all (not_chr (chr "]")) s1) as Hlabel.
    destruct (dropWhile (not_chr (chr "]")) s1) as [|c1 [|c2 s2]];
      [discriminate | discriminate |].
    destruct ((c1 =? chr "]") && (c2 =? chr "(")) eqn:H12; [|discriminate].
    apply andb_true_iff in H12. destruct H12 as [H1 H2].
    apply N.eqb_eq in H1, H2.
    pose proof (takeWhile_dropWhile (not_chr (chr ")")) s2) as Hs2.
    pose proof (takeWhile_all (not_chr (chr ")")) s2) as Htarget.
    pose proof (@dropWhile_head (not_chr (chr ")")) s2) as Hclose.
    destruct (takeWhile (not_chr (chr ")")) s2) as [|a tg] eqn:Htw; [discriminate|].
    destruct (dropWhile (not_chr (chr ")")) s2) as [|c3 rest'] eqn:Hdw; [discriminate|].
    intros H; inversion H; subst target rest'; clear H.
    specialize (Hclose _ _ eq_refl). unfold not_chr in Hclose.
    apply negb_false_iff, N.eqb_eq in Hclose.
    exists (takeWhile (not_chr (chr "]")) s1). subst c0 c1 c2 c3.
    rewrite Hs2, Hs1. repeat split.
    + now apply Hne.
    + discriminate.
    + now apply Hne.
  - intros (label & -> & Hlabel & Hnonempty & Htarget).
    unfold match_here. rewrite N.eqb_refl.
    apply Hne in Hlabel. apply Hne in Htarget.
    destruct (@takeWhile_app_stop (not_chr (chr "]")) label (chr "]")
                (chr "(" :: target ++ chr ")" :: rest) Hlabel) as [_ ->].
    { unfold not_chr. now rewrite N.eqb_refl. }
    rewrite !N.eqb_refl. cbn [andb].
    destruct (@takeWhile_app_stop (not_chr (chr ")")) target (chr ")") rest Htarget)
      as [-> ->].
    { unfold not_chr. now rewrite N.eqb_refl. }
    destruct target; [congruence | reflexivity].
Qed.

Lemma finditer_skip_app (pre rest : str) :
  finditer_skip (List.length pre) (pre ++ rest) = finditer_skip O rest.
Proof.
  induction pre as [|a pre IH]; simpl; [reflexivity | exact IH].
Qed.

(** [finditer] takes the leftmost match and goes on after it; where no
    match starts, it goes on one character further. *)
Lemma finditer_unfold (s : str) :
  finditer s =
  match match_here s with
  | Some (target, rest) => target :: finditer rest
  | None => match s with [] => [] | _ :: s' => finditer s' end
  end.
Proof.
  unfold finditer. destruct s as [|c s']; [reflexivity|].
  cbn [finditer_skip].
  destruct (match_here (c :: s')) as [[target rest]|] eqn:Hm; [|reflexivity].
  f_equal. apply match_here_Some in Hm.
  destruct Hm as (label & Hs & _).
  assert (Hs' : s' = (label ++ chr "]" :: chr "(" :: target ++ [chr ")"]) ++ rest).
  { injection Hs as _ ->. rewrite <- app_assoc. cbn [app].
    rewrite <- app_assoc. reflexivity. }
  rewrite Hs', length_app.
  match goal with
  | |- finditer_skip (?a + ?b - ?b)%nat _ = _ =>
      replace (a + b - b)%nat with a by lia
  end.
  apply finditer_skip_app.
Qed.

End ReFacts.


(** ** Loops that may raise *)

Lemma for_each_app (A S : Type) (body : S -> A -> result S) (l1 l2 : list A) (s : S) :
  for_each body (l1 ++ l2) s = and_then (for_each body l1 s) (for_each body l2).
Proof.
  revert s. induction l1 as [|a l1 IH]; intros s; cbn [app for_each and_then];
    [reflexivity|].
  destruct (body s a) as [s'|e]; cbn [and_then]; [apply IH | reflexivity].
Qed.

(** ** One line of a document *)

Section LineFacts.

Variable w : World.
Variable path : Path.

Lemma check_link_spec (line_no : nat) (acc : list MissingLink) (raw : str) :
  check_link w path line_no acc raw
  = match link_check w path raw with
    | Return true => Return (acc ++ [(path, line_no, raw)])
    | Return false => Return acc
    | Raise e => Raise e
    end.
Proof.
  unfold check_link, link_check.
  destruct (normalize_target w raw) as [target|]; [|reflexivity].
  destruct (resolve_target w (parent path) target) as [candidate|e];
    cbn [and_then]; [|reflexivity].
  destruct (exists_ w candidate) as [[|]|e]; reflexivity.
Qed.

(** A link is reported when its target is kept, resolves, and [exists()]
    returns [False] for the path. *)
Lemma link_is_missing_iff (raw : str) :
  link_is_missing w path raw = true
  <-> exists target candidate,
        normalize_target w raw = Some target
        /\ resolve_target w (parent path) target = Return candidate
        /\ exists_ w candidate = Return false.
Proof.
  unfold link_is_missing, link_check. split.
  - destruct (normalize_target w raw) as [target|]; [|discriminate].
    destruct (resolve_target w (parent path) target) as [candidate|e] eqn:Hc;
      cbn [and_then]; [|discriminate].
    destruct (exists_ w candidate) as [[|]|e] eqn:He; cbn [and_then negb];
      try discriminate.
    intros _. now exists target, candidate.
  - intros (target & candidate & -> & Hc & He). rewrite Hc. cbn [and_then].
    rewrite He. reflexivity.
Qed.

Lemma check_loop_ok (line_no : nat) (raws : list str) :
  (forall raw, In raw raws -> exists b, link_check w path raw = Return b) ->
  forall acc,
    for_each (check_link w path line_no) raws acc
    = Return (acc ++ map (fun raw => (path, line_no, raw))
                         (filter (link_is_missing w path) raws)).
Proof.
  induction raws as [|raw raws IH]; intros Hok acc; cbn [for_each filter map].
  - now rewrite app_nil_r.
  - rewrite check_link_spec. unfold link_is_missing.
    destruct (Hok raw (or_introl eq_refl)) as [b Hb]. rewrite Hb.
    specialize (IH (fun r Hr => Hok r (or_intror Hr))).
    destruct b; cbn [and_then map]; rewrite IH; [|reflexivity].
    now rewrite <- app_assoc.
Qed.

Lemma check_loop_inv (line_no : nat) (raws : list str) :
  forall acc missing,
    for_each (check_link w path line_no) raws acc = Return missing ->
    (forall raw, In raw raws -> exists b, link_check w path raw = Return b)
    /\ missing = acc ++ map (fun raw => (path, line_no, raw))
                           (filter (link_is_missing w path) raws).
Proof.
  induction raws as [|raw raws IH]; intros acc missing; cbn [for_each filter map].
  - intros H. inversion H. split; [intros r []|]. now rewrite app_nil_r.
  - rewrite check_link_spec. unfold link_is_missing.
    destruct (link_check w path raw) as [[|]|e] eqn:Hraw; cbn [and_then];
      [| |discriminate]; intros H; destruct (IH _ _ H) as [Hok ->]; split.
    + intros r [<- | Hr]; [now exists true | now apply Hok].
    + cbn [map]. now rewrite <- app_assoc.
    + intros r [<- | Hr]; [now exists false | now apply Hok].
    + reflexivity.
Qed.

(** The loop over the links ends in the exception of the first check that
    raises. *)
Lemma check_loop_raise (line_no : nat) (pre : list str) (raw : str)
    (post : list str) (e : exn) :
  (forall r, In r pre -> exists b, link_check w path r = Return b) ->
  link_check w path raw = Raise e ->
  forall acc, for_each (check_link w path line_no) (pre ++ raw :: post) acc = Raise e.
Proof.
  intros Hpre Hraw acc. rewrite for_each_app, (check_loop_ok line_no pre Hpre).
  cbn [and_then for_each]. rewrite check_link_spec, Hraw. reflexivity.
Qed.

(** A check that raises ends the loop over the links in an exception. *)
Lemma check_loop_some_raise (line_no : nat) (raws : list str) (raw : str) (e : exn) :
  In raw raws -> link_check w path raw = Raise e ->
  forall acc, exists e', for_each (check_link w path line_no) raws acc = Raise e'.
Proof.
  intros Hin Hraw acc.
  destruct (for_each (check_link w path line_no) raws acc) as [m|e'] eqn:H;
    [|now exists e'].
  destruct (check_loop_inv _ _ _ H) as [Hok _].
  destruct (Hok raw Hin) as [b Hb]. congruence.
Qed.

Lemma check_legacy_spec (line_no : nat) (line : str) (acc : list LegacyRef) :
  check_legacy path line_no line acc = acc ++ line_legacy path (line_no, line).
Proof.
  unfold check_legacy, line_legacy. cbn [fst snd].
  generalize LEGACY_PATHS as table. intros table. revert acc.
  induction table as [|[key replacement] table IH]; intros acc;
    cbn [fold_left filter map fst snd].
  - now rewrite app_nil_r.
  - rewrite IH. destruct (contains key line); cbn [map fst snd].
    + now rewrite <- app_assoc.
    + reflexivity.
Qed.

(** The three ways through the body of the loop over the lines. *)
Lemma scan_line_spec (st : Locals) (line_no : nat) (line : str) :
  scan_line w path st (line_no, line) =
  if is_fence line then
    Return {| in_code_block := negb (in_code_block st);
              missing_links := missing_links st;
              legacy_refs := legacy_refs st |}
  else if in_code_block st then Return st
  else
    match check_links w path line_no line (missing_links st) with
    | Return missing =>
        Return {| in_code_block := false;
                  missing_links := missing;
                  legacy_refs := legacy_refs st ++ line_legacy path (line_no, line) |}
    | Raise e => Raise e
    end.
Proof.
  unfold scan_line, is_fence. cbv zeta.
  destruct (startswith (py "```") (strip line) || startswith (py "~~~") (strip line));
    [reflexivity|].
  destruct (in_code_block st) eqn:Hb; [reflexivity|].
  rewrite check_legacy_spec.
  destruct (check_links w path line_no line (missing_links st)); reflexivity.
Qed.

Lemma scan_line_ok (st : Locals) (line_no : nat) (line : str) :
  is_fence line = false -> in_code_block st = false ->
  line_checks_ok w path line ->
  scan_line w path st (line_no, line)
  = Return {| in_code_block := false;
              missing_links := missing_links st ++ line_missing w path (line_no, line);
              legacy_refs := legacy_refs st ++ line_legacy path (line_no, line) |}.
Proof.
  intros Hf Hb Hok. rewrite scan_line_spec, Hf, Hb. unfold check_links.
  rewrite (check_loop_ok line_no (finditer line) Hok). reflexivity.
Qed.

Lemma scan_line_checked_inv (st st' : Locals) (line_no : nat) (line : str) :
  is_fence line = false -> in_code_block st = false ->
  scan_line w path st (line_no, line) = Return st' ->
  line_checks_ok w path line
  /\ st' = {| in_code_block := false;
              missing_links := missing_links st ++ line_missing w path (line_no, line);
              legacy_refs := legacy_refs st ++ line_legacy path (line_no, line) |}.
Proof.
  intros Hf Hb. rewrite scan_line_spec, Hf, Hb. unfold check_links.
  destruct (for_each (check_link w path line_no) (finditer line) (missing_links st))
    as [m|e] eqn:Hloop; [|discriminate].
  destruct (check_loop_inv _ _ _ Hloop) as [Hok ->].
  intros H. inversion H. split; [exact Hok | reflexivity].
Qed.

Lemma scan_line_raise (st : Locals) (line_no : nat) (line raw : str) (e : exn) :
  is_fence line = false -> in_code_block st = false ->
  In raw (finditer line) -> link_check w path raw = Raise e ->
  exists e', scan_line w path st (line_no, line) = Raise e'.
Proof.
  intros Hf Hb Hin Hraw. rewrite scan_line_spec, Hf, Hb. unfold check_links.
  destruct (check_loop_some_raise line_no _ _ Hin Hraw (missing_links st)) as [e' ->].
  now exists e'.
Qed.

End LineFacts.

Lemma contains_tail (c : char) (sub s : str) :
  contains (c :: sub) s = true -> contains sub s = true.
Proof.
  induction s as [|a s IH].
  - cbn. discriminate.
  - cbn [contains]. intros H. apply orb_true_iff in H. destruct H as [H | H].
    + cbn [startswith] in H. apply andb_true_iff in H. destruct H as [_ H].
      apply orb_true_iff. right.
      destruct s; cbn [contains]; rewrite H; reflexivity.
    + apply orb_true_iff. right. exact (IH H).
Qed.

Lemma lstrip_chr_not_startswith (c : char) (s : str) :
  startswith [c] (lstrip_chr c s) = false.
Proof.
  unfold lstrip_chr.
  destruct (dropWhile (fun x => N.eqb x c) s) as [|a r] eqn:H; [reflexivity|].
  apply dropWhile_head in H. cbn [startswith].
  rewrite N.eqb_sym, H. reflexivity.
Qed.

Lemma enumerate_from_nth (lines : list str) (s i : nat) (line : str) :
  nth_error lines i = Some line ->
  nth_error (combine (seq s (List.length lines)) lines) i = Some ((s + i)%nat, line).
Proof.
  revert s i. induction lines as [|l lines IH]; intros s [|i] H; cbn in *;
    try discriminate.
  - inversion H. now rewrite Nat.add_0_r.
  - rewrite (IH (S s) i H). now rewrite Nat.add_succ_r.
Qed.

(** [enumerate(lines, 1)] numbers the lines from 1. *)
Lemma enumerate1_nth (lines : list str) (i : nat) (line : str) :
  nth_error lines i = Some line ->
  nth_error (enumerate1 lines) i = Some (S i, line).
Proof.
  intros H. unfold enumerate1. now rewrite (enumerate_from_nth _ 1 _ H).
Qed.


(** ** Resolution of a target *)



(** ** Findings of a line *)

(** C5: on a line outside a fenced block on which no check of
    a link raises, the matches of the link pattern whose normalised target
    resolves to a path for which [exists()] returns [False] give one
    missing-link finding each, in the order of the matches, and the finding
    holds the file, the line number and the raw target; the line
    [[text](./missing-file.md)] with no such file gives the one finding with
    raw target [./missing-file.md]; line numbers start at 1.  When a check
    raises, the scan of the line ends in an exception and no finding is
    recorded. *)
Theorem missing_link_findings (w : World) (path : Path) (st : Locals) :
  in_code_block st = false ->
  (forall line_no line,
      is_fence line = false ->
      line_checks_ok w path line ->
      exists st',
        scan_line w path st (line_no, line) = Return st'
        /\ missing_links st'
           = missing_links st
             ++ map (fun raw_target => (path, line_no, raw_target))
                    (filter (link_is_missing w path) (finditer line)))
  /\ (forall raw_target,
      link_is_missing w path raw_target = true
      <-> exists target candidate,
            normalize_target w raw_target = Some target
            /\ resolve_target w (parent path) target = Return candidate
            /\ exists_ w candidate = Return false)
  /\ (forall line_no candidate,
      resolve_target w (parent path) (unquote w (py "./missing-file.md"))
      = Return candidate ->
      exists_ w candidate = Return false ->
      exists st',
        scan_line w path st (line_no, py "[text](./missing-file.md)") = Return st'
        /\ missing_links st' = missing_links st ++ [(path, line_no, py "./missing-file.md")])
  /\ (forall lines i line,
      nth_error lines i = Some line ->
      nth_error (enumerate1 lines) i = Some (S i, line))
  /\ (forall line_no line raw_target e,
      is_fence line = false ->
      In raw_target (finditer line) ->
      link_check w path raw_target = Raise e ->
      exists e', scan_line w path st (line_no, line) = Raise e').
Proof.
  intros Hst. split; [|split; [|split; [|split]]].
  - intros line_no line Hfence Hok. eexists. split.
    + exact (@scan_line_ok w path st line_no _ Hfence Hst Hok).
    + reflexivity.
  - apply link_is_missing_iff.
  - intros line_no candidate Hres Hgone.
    assert (Hfence : is_fence (py "[text](./missing-file.md)") = false)
      by (vm_compute; reflexivity).
    assert (Hlinks : finditer (py "[text](./missing-file.md)") = [py "./missing-file.md"])
      by (vm_compute; reflexivity).
    assert (Hnorm : normalize_target w (py "./missing-file.md")
                    = Some (unquote w (py "./missing-file.md")))
      by reflexivity.
    assert (Hcheck : link_check w path (py "./missing-file.md") = Return true).
    { unfold link_check. rewrite Hnorm, Hres. cbn [and_then]. now rewrite Hgone. }
    assert (Hok : line_checks_ok w path (py "[text](./missing-file.md)")).
    { intros raw Hraw. rewrite Hlinks in Hraw. destruct Hraw as [<- | []].
      now exists true. }
    eexists. split.
    + exact (@scan_line_ok w path st line_no _ Hfence Hst Hok).
    + cbn [missing_links]. unfold line_missing. cbn [fst snd].
      rewrite Hlinks. cbn [filter]. unfold link_is_missing. rewrite Hcheck.
      reflexivity.
  - exact enumerate1_nth.
  - intros line_no line raw e Hfence Hin Hraw.
    exact (@scan_line_raise w path st line_no line raw e Hfence Hst Hin Hraw).
Qed.

Lemma example_line_checks_ok :
  line_checks_ok Example.world Example.readme
    (py "See [guide](Docs/guide.md) and [gone](./missing-file.md).").
Proof.
  intros raw Hraw. vm_compute in Hraw.
  destruct Hraw as [<- | [<- | []]]; eexists; vm_compute; reflexivity.
Qed.

Lemma missing_link_findings_witness :
  exists st',
    scan_line Example.world Example.readme no_findings
      (2%nat, py "See [guide](Docs/guide.md) and [gone](./missing-file.md).")
    = Return st'
    /\ missing_links st' = [(Example.readme, 2%nat, py "./missing-file.md")].
Proof.
  exact (proj1 (@missing_link_findings Example.world Example.readme no_findings eq_refl)
               2%nat (py "See [guide](Docs/guide.md) and [gone](./missing-file.md).")
               eq_refl example_line_checks_ok).
Defined.

(** A link whose target resolves to a path that does not exist, and that
    gives no finding.  The line stands outside any fence; its one link
    resolves to a path that is not in the tree and whose name is too long
    for [stat]: [exists()] raises at line 91, and line 92 is not reached. *)
Lemma missing_link_findings_counterexample :
  let line := py "[x](/" ++ Example.long_name ++ py ")" in
  in_code_block no_findings = false
  /\ is_fence line = false
  /\ finditer line = [chr "/" :: Example.long_name]
  /\ normalize_target Example.world (chr "/" :: Example.long_name)
     = Some (chr "/" :: Example.long_name)
  /\ resolve_target Example.world (parent Example.readme) (chr "/" :: Example.long_name)
     = Return [py "repo"; Example.long_name]
  /\ Example.mem [py "repo"; Example.long_name] Example.tree = false
  /\ exists_ Example.world [py "repo"; Example.long_name] = Raise OSError
  /\ scan_line Example.world Example.readme no_findings (1%nat, line) = Raise OSError
  /\ main long_link_world = ([], Raise OSError).
Proof. cbv zeta. repeat split; vm_compute; reflexivity. Qed.

(** C6: on a line outside a fenced block on which no check of
    a link raises, the legacy keys the line contains give one legacy finding
    each, in the order of the table; a line that contains a key with the
    leading separator gives a finding for that key and one for the key
    without it; a link that is reported missing and a legacy key on one line
    give both findings.  When a check of a link raises, the loop over the
    legacy paths is not reached. *)
Theorem legacy_findings (w : World) (path : Path) (st : Locals)
    (line_no : nat) (line : str) :
  in_code_block st = false ->
  is_fence line = false ->
  (line_checks_ok w path line ->
   exists st',
     scan_line w path st (line_no, line) = Return st'
     /\ legacy_refs st'
        = legacy_refs st
          ++ map (fun kv : str * str => (path, line_no, fst kv, snd kv))
                 (filter (fun kv : str * str => contains (fst kv) line) LEGACY_PATHS)
     /\ (forall key replacement,
         In (chr "/" :: key, replacement) LEGACY_PATHS ->
         contains (chr "/" :: key) line = true ->
         In (key, replacement) LEGACY_PATHS
         /\ In (path, line_no, key, replacement) (legacy_refs st')
         /\ In (path, line_no, chr "/" :: key, replacement) (legacy_refs st'))
     /\ (forall raw_target key replacement,
         In raw_target (finditer line) ->
         link_is_missing w path raw_target = true ->
         In (key, replacement) LEGACY_PATHS ->
         contains key line = true ->
         In (path, line_no, raw_target) (missing_links st')
         /\ In (path, line_no, key, replacement) (legacy_refs st')))
  /\ (forall raw_target e,
      In raw_target (finditer line) ->
      link_check w path raw_target = Raise e ->
      exists e', scan_line w path st (line_no, line) = Raise e').
Proof.
  intros Hst Hfence. split.
  2:{ intros raw e Hin Hraw.
      exact (@scan_line_raise w path st line_no line raw e Hfence Hst Hin Hraw). }
  intros Hok. eexists. split; [exact (@scan_line_ok w path st line_no _ Hfence Hst Hok)|].
  cbn [missing_links legacy_refs].
  assert (Hin : forall key replacement,
             In (key, replacement) LEGACY_PATHS -> contains key line = true ->
             In (path, line_no, key, replacement)
                (legacy_refs st ++ line_legacy path (line_no, line))).
  { intros key replacement Hkey Hsub.
    apply in_or_app. right. unfold line_legacy. cbn [fst snd].
    apply (in_map (fun kv : str * str => (path, line_no, fst kv, snd kv))
                  _ (key, replacement)).
    apply filter_In. split; assumption. }
  split; [reflexivity|]. split.
  - intros key replacement Hkey Hsub.
    assert (Hbare : In (key, replacement) LEGACY_PATHS).
    { cbv in Hkey. cbv.
      destruct Hkey as [H | [H | [H | [H | []]]]]; inversion H; subst; auto. }
    split; [exact Hbare|]. split.
    + apply Hin; [exact Hbare | exact (contains_tail _ _ _ Hsub)].
    + apply Hin; assumption.
  - intros raw_target key replacement Hraw Hmissing Hkey Hsub. split.
    + apply in_or_app. right. unfold line_missing. cbn [fst snd].
      apply (in_map (fun raw => (path, line_no, raw))).
      apply filter_In. split; assumption.
    + apply Hin; assumption.
Qed.

Lemma example_legacy_line_checks_ok :
  line_checks_ok Example.world Example.guide
    (py "Old: [text](/Views/OnboardingFlowView.swift)").
Proof.
  intros raw Hraw. vm_compute in Hraw.
  destruct Hraw as [<- | []]; eexists; vm_compute; reflexivity.
Qed.

Lemma legacy_findings_witness :
  exists st',
    scan_line Example.world Example.guide no_findings
      (5%nat, py "Old: [text](/Views/OnboardingFlowView.swift)")
    = Return st'
    /\ legacy_refs st'
       = [ (Example.guide, 5%nat, py "Views/OnboardingFlowView.swift",
            py "Views/Onboarding/OnboardingFlowView.swift");
           (Example.guide, 5%nat, py "/Views/OnboardingFlowView.swift",
            py "Views/Onboarding/OnboardingFlowView.swift") ].
Proof.
  destruct (proj1 (@legacy_findings Example.world Example.guide no_findings 5%nat
                     (py "Old: [text](/Views/OnboardingFlowView.swift)")
                     eq_refl eq_refl) example_legacy_line_checks_ok)
    as (st' & Hrun & Hlegacy & _).
  exists st'. split; [exact Hrun | exact Hlegacy].
Defined.

(** A legacy key on a line outside any fence that gives no finding: the
    check of the link of the line raises at line 91, before the loop over
    the legacy paths at line 93. *)
Lemma legacy_findings_counterexample :
  let line := py "[x](/" ++ Example.long_name ++ py ") Views/SettingsView.swift" in
  in_code_block no_findings = false
  /\ is_fence line = false
  /\ In (py "Views/SettingsView.swift", py "Views/Settings/SettingsView.swift")
        LEGACY_PATHS
  /\ contains (py "Views/SettingsView.swift") line = true
  /\ finditer line = [chr "/" :: Example.long_name]
  /\ link_check Example.world Example.guide (chr "/" :: Example.long_name)
     = Raise OSError
  /\ scan_line Example.world Example.guide no_findings (1%nat, line) = Raise OSError.
Proof.
  cbv zeta. repeat split; try (vm_compute; reflexivity).
  right. right. left. reflexivity.
Qed.

(** C10: a fence line, whether it opens or closes a block, toggles the
    fence state and gives no finding, whatever else stands on the line; no
    link of the line is checked, so nothing is raised. *)
Theorem fence_line_no_finding (w : World) (path : Path) (st : Locals)
    (line_no : nat) (line : str) :
  is_fence line = true ->
  scan_line w path st (line_no, line)
  = Return {| in_code_block := negb (in_code_block st);
              missing_links := missing_links st;
              legacy_refs := legacy_refs st |}.
Proof.
  intros Hfence. now rewrite scan_line_spec, Hfence.
Qed.

(** A fence line that holds a link to no file, a link whose check would
    raise, and a legacy path. *)
Example fence_line_with_link_and_legacy :
  let line := py "  ```swift [x](nowhere.md) [y](/" ++ Example.long_name
              ++ py ") /Views/SettingsView.swift" in
  is_fence line = true
  /\ finditer line = [py "nowhere.md"; chr "/" :: Example.long_name]
  /\ link_check Example.world Example.guide (py "nowhere.md") = Return true
  /\ link_check Example.world Example.guide (chr "/" :: Example.long_name)
     = Raise OSError
  /\ contains (py "/Views/SettingsView.swift") line = true.
Proof. cbv zeta. repeat split; vm_compute; reflexivity. Qed.

Lemma fence_line_no_finding_witness :
  scan_line Example.world Example.guide no_findings
    (3%nat, py "  ```swift [x](nowhere.md) [y](/" ++ Example.long_name
            ++ py ") /Views/SettingsView.swift")
  = Return {| in_code_block := true; missing_links := []; legacy_refs := [] |}.
Proof.
  exact (@fence_line_no_finding Example.world Example.guide no_findings 3%nat
           (py "  ```swift [x](nowhere.md) [y](/" ++ Example.long_name
            ++ py ") /Views/SettingsView.swift") eq_refl).
Defined.

(** ** One document *)

Lemma firstn_succ_nth (A : Type) (l : list A) (i : nat) (x : A) :
  nth_error l i = Some x -> firstn (S i) l = firstn i l ++ [x].
Proof.
  revert i. induction l as [|a l IH]; intros [|i] H; cbn in *; try discriminate.
  - now inversion H.
  - now rewrite <- (IH i H).
Qed.

Lemma enumerate_from_snd (lines : list str) (s : nat) :
  map snd (combine (seq s (List.length lines)) lines) = lines.
Proof.
  revert s. induction lines as [|l lines IH]; intros s; cbn; [reflexivity|].
  now rewrite IH.
Qed.

Lemma enumerate1_length (lines : list str) :
  List.length (enumerate1 lines) = List.length lines.
Proof.
  unfold enumerate1. rewrite length_combine, length_seq. apply Nat.min_id.
Qed.

Lemma fence_after_cons (b : bool) (line : str) (lines : list str) :
  fence_after b (line :: lines)
  = fence_after (if is_fence line then negb b else b) lines.
Proof. reflexivity. Qed.

(** A checked line is no fence line, and the fence state before it is
    false. *)
Lemma checked_lines_In (lines : list str) :
  forall s b k line,
    In (k, line) (checked_lines b (combine (seq s (List.length lines)) lines)) ->
    exists i, k = (s + i)%nat /\ nth_error lines i = Some line
              /\ is_fence line = false
              /\ fence_after b (firstn i lines) = false.
Proof.
  induction lines as [|l lines IH]; intros s b k line; cbn [List.length seq combine checked_lines].
  - intros [].
  - destruct (is_fence l) eqn:Hl.
    + intros H. destruct (IH _ _ _ _ H) as (i & -> & Hn & Hf & Hb).
      exists (S i). cbn [nth_error firstn]. rewrite fence_after_cons, Hl.
      repeat split; try assumption. lia.
    + destruct b.
      * intros H. destruct (IH _ _ _ _ H) as (i & -> & Hn & Hf & Hb).
        exists (S i). cbn [nth_error firstn]. rewrite fence_after_cons, Hl.
        repeat split; try assumption. lia.
      * intros [H | H].
        -- inversion H; subst. exists 0%nat. cbn. repeat split; try assumption. lia.
        -- destruct (IH _ _ _ _ H) as (i & -> & Hn & Hf & Hb).
           exists (S i). cbn [nth_error firstn]. rewrite fence_after_cons, Hl.
           repeat split; try assumption. lia.
Qed.


Section DocFacts.

Variable w : World.
Variable path : Path.

(** What a loop adds to the findings it starts with does not depend on
    them, nor does the exception it may end in. *)
Lemma check_loop_acc (line_no : nat) (raws : list str) :
  forall acc,
    for_each (check_link w path line_no) raws acc
    = match for_each (check_link w path line_no) raws [] with
      | Return m => Return (acc ++ m)
      | Raise e => Raise e
      end.
Proof.
  induction raws as [|raw raws IH]; intros acc; cbn [for_each].
  - now rewrite app_nil_r.
  - rewrite !check_link_spec.
    destruct (link_check w path raw) as [[|]|e]; cbn [and_then app].
    + rewrite (IH (acc ++ [(path, line_no, raw)])), (IH [(path, line_no, raw)]).
      destruct (for_each (check_link w path line_no) raws []); [|reflexivity].
      now rewrite <- app_assoc.
    + apply IH.
    + reflexivity.
Qed.

Lemma scan_lines_acc (lines : list (nat * str)) :
  forall b m l,
    scan_lines w path {| in_code_block := b; missing_links := m; legacy_refs := l |}
               lines
    = match scan_lines w path
              {| in_code_block := b; missing_links := []; legacy_refs := [] |} lines
      with
      | Return st0 =>
          Return {| in_code_block := in_code_block st0;
                    missing_links := m ++ missing_links st0;
                    legacy_refs := l ++ legacy_refs st0 |}
      | Raise e => Raise e
      end.
Proof.
  unfold scan_lines.
  induction lines as [|[k line] rest IH]; intros b m l; cbn [for_each].
  - cbn. now rewrite !app_nil_r.
  - rewrite !scan_line_spec. cbn [in_code_block missing_links legacy_refs].
    destruct (is_fence line); cbn [and_then]; [apply IH|].
    destruct b; cbn [and_then]; [apply IH|].
    unfold check_links. rewrite (check_loop_acc k (finditer line) m).
    destruct (for_each (check_link w path k) (finditer line) []) as [x|e];
      cbn [and_then app]; [|reflexivity].
    rewrite (IH false (m ++ x) (l ++ line_legacy path (k, line))).
    rewrite (IH false x (line_legacy path (k, line))).
    destruct (for_each (scan_line w path) rest
                {| in_code_block := false; missing_links := []; legacy_refs := [] |});
      [|reflexivity].
    cbn [in_code_block missing_links legacy_refs]. now rewrite <- !app_assoc.
Qed.

(** The loop over the lines, when no check raises on a checked line: the
    fence state it ends in and the findings of the checked lines. *)
Lemma scan_lines_ok (lines : list (nat * str)) :
  forall st,
    (forall k line, In (k, line) (checked_lines (in_code_block st) lines) ->
                    line_checks_ok w path line) ->
    scan_lines w path st lines
    = Return
        {| in_code_block := fence_after (in_code_block st) (map snd lines);
           missing_links :=
             missing_links st
             ++ flat_map (line_missing w path) (checked_lines (in_code_block st) lines);
           legacy_refs :=
             legacy_refs st
             ++ flat_map (line_legacy path) (checked_lines (in_code_block st) lines) |}.
Proof.
  unfold scan_lines.
  induction lines as [|[k line] rest IH]; intros st Hok.
  - destruct st; cbn. now rewrite !app_nil_r.
  - cbn [for_each]. rewrite scan_line_spec.
    cbn [map snd checked_lines] in *. rewrite fence_after_cons.
    destruct (is_fence line) eqn:Hf.
    + cbn [and_then]. rewrite IH; [reflexivity | exact Hok].
    + destruct (in_code_block st) eqn:Hb.
      * cbn [and_then]. rewrite IH; rewrite Hb; [reflexivity | exact Hok].
      * unfold check_links.
        rewrite (check_loop_ok w path k (finditer line)
                   (Hok k line (or_introl eq_refl))).
        cbn [and_then]. rewrite IH; cbn [in_code_block missing_links legacy_refs].
        -- cbn [flat_map]. now rewrite <- !app_assoc.
        -- intros k' line' Hin. apply (Hok k' line'). now right.
Qed.

(** When the loop over the lines returns, no check has raised on a checked
    line. *)
Lemma scan_lines_inv (lines : list (nat * str)) :
  forall st st',
    scan_lines w path st lines = Return st' ->
    forall k line, In (k, line) (checked_lines (in_code_block st) lines) ->
                   line_checks_ok w path line.
Proof.
  unfold scan_lines.
  induction lines as [|[k line] rest IH]; intros st st' Hrun k0 line0;
    cbn [checked_lines]; [intros []|].
  cbn [for_each] in Hrun. rewrite scan_line_spec in Hrun. revert Hrun.
  destruct (is_fence line) eqn:Hf.
  - cbn [and_then]. intros Hrun Hin. exact (IH _ _ Hrun k0 line0 Hin).
  - destruct (in_code_block st) eqn:Hb.
    + cbn [and_then]. intros Hrun Hin.
      apply (IH _ _ Hrun k0 line0). now rewrite Hb.
    + unfold check_links.
      destruct (for_each (check_link w path k) (finditer line) (missing_links st))
        as [m|e] eqn:Hloop; cbn [and_then]; [|discriminate].
      intros Hrun [Heq | Hin].
      * inversion Heq; subst. exact (proj1 (@check_loop_inv w path _ _ _ _ Hloop)).
      * exact (IH _ _ Hrun k0 line0 Hin).
Qed.

Lemma scan_lines_return (lines : list (nat * str)) (st st' : Locals) :
  scan_lines w path st lines = Return st' ->
  st' = {| in_code_block := fence_after (in_code_block st) (map snd lines);
           missing_links :=
             missing_links st
             ++ flat_map (line_missing w path) (checked_lines (in_code_block st) lines);
           legacy_refs :=
             legacy_refs st
             ++ flat_map (line_legacy path) (checked_lines (in_code_block st) lines) |}.
Proof.
  intros Hrun. pose proof (@scan_lines_ok lines st (@scan_lines_inv lines st st' Hrun)) as Hok.
  congruence.
Qed.

Lemma scan_text_ok (text : str) (st : Locals) :
  doc_checks_ok w path text ->
  scan_text w path text st
  = Return {| in_code_block := fence_after false (splitlines text);
              missing_links := missing_links st ++ doc_missing w path text;
              legacy_refs := legacy_refs st ++ doc_legacy path text |}.
Proof.
  intros Hok. unfold scan_text. rewrite scan_lines_ok; [|exact Hok].
  cbn [enter_file in_code_block missing_links legacy_refs]. unfold enumerate1 at 1.
  now rewrite enumerate_from_snd.
Qed.

Lemma scan_text_return (text : str) (st st' : Locals) :
  scan_text w path text st = Return st' ->
  doc_checks_ok w path text
  /\ st' = {| in_code_block := fence_after false (splitlines text);
              missing_links := missing_links st ++ doc_missing w path text;
              legacy_refs := legacy_refs st ++ doc_legacy path text |}.
Proof.
  intros Hrun.
  assert (Hok : doc_checks_ok w path text) by exact (@scan_lines_inv _ _ _ Hrun).
  split; [exact Hok|]. rewrite (@scan_text_ok text st Hok) in Hrun. congruence.
Qed.

Lemma scan_lines_prefix_fence (lines : list str) (st sti : Locals) (i : nat) :
  scan_lines w path (enter_file st) (firstn i (enumerate1 lines)) = Return sti ->
  in_code_block sti = fence_after false (firstn i lines).
Proof.
  intros Hrun. rewrite (@scan_lines_return _ _ _ Hrun). cbn [in_code_block enter_file].
  rewrite <- firstn_map. unfold enumerate1. now rewrite enumerate_from_snd.
Qed.

End DocFacts.

(** C2: the scan of a document carries one fence state, false before the
    first line; a fence line toggles it and no other line changes it; a line
    scanned while it is true is passed over, with no check and no finding,
    so no finding of the document carries the number of such a line. *)
Theorem fence_state_suppresses_findings (w : World) (path : Path) (text : str)
    (st : Locals) :
  let lines := splitlines text in
  let before := fun i =>
    scan_lines w path (enter_file st) (firstn i (enumerate1 lines)) in
  before 0%nat = Return (enter_file st)
  /\ in_code_block (enter_file st) = false
  /\ scan_text w path text st = before (List.length lines)
  /\ (forall i line sti,
      nth_error lines i = Some line ->
      before i = Return sti ->
      before (S i) = scan_line w path sti (S i, line)
      /\ (is_fence line = true ->
          before (S i)
          = Return {| in_code_block := negb (in_code_block sti);
                      missing_links := missing_links sti;
                      legacy_refs := legacy_refs sti |})
      /\ (is_fence line = false -> in_code_block sti = true ->
          before (S i) = Return sti)
      /\ (forall st', before (S i) = Return st' ->
          in_code_block st'
          = (if is_fence line then negb (in_code_block sti) else in_code_block sti)))
  /\ (forall st', scan_text w path text st = Return st' ->
      missing_links st' = missing_links st ++ doc_missing w path text
      /\ legacy_refs st' = legacy_refs st ++ doc_legacy path text)
  /\ (forall i sti,
      before i = Return sti ->
      in_code_block sti = true ->
      (forall f, In f (doc_missing w path text) -> snd (fst f) <> S i)
      /\ (forall f, In f (doc_legacy path text) -> snd (fst (fst f)) <> S i)).
Proof.
  intros lines before.
  assert (Hstep : forall i line sti, nth_error lines i = Some line ->
            before i = Return sti ->
            before (S i) = scan_line w path sti (S i, line)).
  { intros i line sti Hn Hb. unfold before in *.
    rewrite (firstn_succ_nth _ _ (enumerate1_nth _ _ Hn)).
    unfold scan_lines in *. rewrite for_each_app, Hb. cbn [and_then for_each].
    now destruct (scan_line w path sti (S i, line)). }
  split; [reflexivity|]. split; [reflexivity|]. split.
  { unfold before, scan_text. fold lines.
    now rewrite <- enumerate1_length, firstn_all. }
  split.
  { intros i line sti Hn Hb. rewrite (Hstep i line sti Hn Hb), scan_line_spec.
    split; [reflexivity|].
    destruct (is_fence line).
    - split; [reflexivity|]. split; [discriminate|].
      intros st' H. inversion H. reflexivity.
    - split; [discriminate|]. destruct (in_code_block sti) eqn:Hsti.
      + split; [reflexivity|]. intros st' H. inversion H; subst. exact Hsti.
      + split; [discriminate|].
        destruct (check_links w path (S i) line (missing_links sti));
          intros st' H; inversion H. reflexivity. }
  split.
  { intros st' Hrun. destruct (@scan_text_return w path text st st' Hrun) as [_ ->].
    split; reflexivity. }
  intros i sti Hb Hsti. unfold before in Hb.
  rewrite (@scan_lines_prefix_fence w path lines st sti i Hb) in Hsti.
  split.
  - intros f Hf Hno. unfold doc_missing in Hf. apply in_flat_map in Hf.
    destruct Hf as ([k line] & Hchecked & Hline).
    unfold enumerate1 in Hchecked. apply checked_lines_In in Hchecked.
    destruct Hchecked as (j & -> & _ & _ & Hfalse).
    unfold line_missing in Hline. apply in_map_iff in Hline.
    destruct Hline as (raw & <- & _). cbn [fst snd] in Hno.
    assert (j = i) by lia. subst j. fold lines in Hfalse. congruence.
  - intros f Hf Hno. unfold doc_legacy in Hf. apply in_flat_map in Hf.
    destruct Hf as ([k line] & Hchecked & Hline).
    unfold enumerate1 in Hchecked. apply checked_lines_In in Hchecked.
    destruct Hchecked as (j & -> & _ & _ & Hfalse).
    unfold line_legacy in Hline. apply in_map_iff in Hline.
    destruct Hline as (kv & <- & _). cbn [fst snd] in Hno.
    assert (j = i) by lia. subst j. fold lines in Hfalse. congruence.
Qed.

(** C9: a file is scanned from the fence state false, whatever state the
    file before it ended in: the findings it adds, or the exception its scan
    ends in, are those of the file scanned on its own. *)
Theorem fence_state_reset_per_file (w : World) (path : Path) (text : str)
    (st : Locals) :
  in_code_block (enter_file st) = false
  /\ scan_text w path text st = scan_text w path text (enter_file st)
  /\ (forall st0,
      scan_text w path text no_findings = Return st0 ->
      scan_text w path text st
      = Return {| in_code_block := in_code_block st0;
                  missing_links := missing_links st ++ missing_links st0;
                  legacy_refs := legacy_refs st ++ legacy_refs st0 |})
  /\ (forall e,
      scan_text w path text no_findings = Raise e ->
      scan_text w path text st = Raise e).
Proof.
  split; [reflexivity|]. split; [reflexivity|].
  unfold scan_text, enter_file, no_findings. cbn [missing_links legacy_refs].
  rewrite (scan_lines_acc w path (enumerate1 (splitlines text))
             false (missing_links st) (legacy_refs st)).
  split.
  - intros st0 H. now rewrite H.
  - intros e H. now rewrite H.
Qed.

(** ** The order of paths *)

Section LexFacts.

Variable A : Type.
Variable cmp : A -> A -> comparison.
Hypothesis cmp_eq : forall x y, cmp x y = Eq <-> x = y.
Hypothesis cmp_antisym : forall x y, cmp y x = CompOpp (cmp x y).
Hypothesis cmp_trans : forall x y z, cmp x y = Lt -> cmp y z = Lt -> cmp x z = Lt.

Lemma lex_compare_eq (l1 l2 : list A) : lex_compare cmp l1 l2 = Eq <-> l1 = l2.
Proof.
  revert l2. induction l1 as [|x l1 IH]; intros [|y l2]; cbn;
    try (split; [discriminate | discriminate]); [split; reflexivity|].
  destruct (cmp x y) eqn:Hxy.
  - apply cmp_eq in Hxy. subst y. rewrite IH. split; [intros ->; reflexivity|].
    now inversion 1.
  - split; [discriminate|]. intros H; inversion H; subst.
    assert (cmp y y = Eq) by now apply cmp_eq. congruence.
  - split; [discriminate|]. intros H; inversion H; subst.
    assert (cmp y y = Eq) by now apply cmp_eq. congruence.
Qed.

Lemma lex_compare_antisym (l1 l2 : list A) :
  lex_compare cmp l2 l1 = CompOpp (lex_compare cmp l1 l2).
Proof.
  revert l2. induction l1 as [|x l1 IH]; intros [|y l2]; cbn; try reflexivity.
  rewrite (cmp_antisym x y). destruct (cmp x y); cbn; [apply IH | reflexivity..].
Qed.

Lemma lex_compare_trans (l1 l2 l3 : list A) :
  lex_compare cmp l1 l2 = Lt -> lex_compare cmp l2 l3 = Lt ->
  lex_compare cmp l1 l3 = Lt.
Proof.
  revert l2 l3. induction l1 as [|x l1 IH]; intros [|y l2] [|z l3]; cbn;
    try discriminate; try reflexivity.
  destruct (cmp x y) eqn:Hxy; try discriminate.
  - apply cmp_eq in Hxy. subst y.
    destruct (cmp x z); try discriminate; [apply IH | reflexivity].
  - intros _. destruct (cmp y z) eqn:Hyz; try discriminate.
    + apply cmp_eq in Hyz. subst z. now rewrite Hxy.
    + intros _. now rewrite (cmp_trans Hxy Hyz).
Qed.

End LexFacts.

Lemma str_compare_eq (a b : str) : Str.compare a b = Eq <-> a = b.
Proof. apply lex_compare_eq. exact N.compare_eq_iff. Qed.

Lemma str_compare_antisym (a b : str) : Str.compare b a = CompOpp (Str.compare a b).
Proof. apply lex_compare_antisym. intros x y. apply N.compare_antisym. Qed.

Lemma str_compare_trans (a b c : str) :
  Str.compare a b = Lt -> Str.compare b c = Lt -> Str.compare a c = Lt.
Proof.
  apply lex_compare_trans.
  - exact N.compare_eq_iff.
  - intros x y z Hxy Hyz. apply N.compare_lt_iff in Hxy, Hyz.
    apply N.compare_lt_iff. exact (N.lt_trans _ _ _ Hxy Hyz).
Qed.

Lemma str_eqb_refl (a : str) : Str.eqb a a = true.
Proof. unfold Str.eqb. destruct (list_eq_dec N.eq_dec a a); congruence. Qed.

Lemma path_compare_eq (p q : Path) : PurePath.compare p q = Eq <-> p = q.
Proof. apply lex_compare_eq. exact str_compare_eq. Qed.

Lemma path_compare_antisym (p q : Path) :
  PurePath.compare q p = CompOpp (PurePath.compare p q).
Proof. apply lex_compare_antisym. exact str_compare_antisym. Qed.

Lemma ltb_irrefl (p : Path) : ltb p p = false.
Proof.
  unfold ltb. assert (PurePath.compare p p = Eq) as -> by now apply path_compare_eq.
  reflexivity.
Qed.

Lemma ltb_trans (p q r : Path) : ltb p q = true -> ltb q r = true -> ltb p r = true.
Proof.
  unfold ltb. intros Hpq Hqr.
  destruct (PurePath.compare p q) eqn:H1; try discriminate.
  destruct (PurePath.compare q r) eqn:H2; try discriminate.
  unfold PurePath.compare in *.
  rewrite (@lex_compare_trans _ _ str_compare_eq str_compare_trans _ _ _ H1 H2).
  reflexivity.
Qed.

Lemma ltb_asym (p q : Path) : ltb p q = true -> ltb q p = false.
Proof.
  unfold ltb. rewrite (path_compare_antisym p q).
  destruct (PurePath.compare p q); cbn; congruence.
Qed.

Lemma ltb_total (p q : Path) : p <> q -> ltb q p = false -> ltb p q = true.
Proof.
  unfold ltb. rewrite (path_compare_antisym p q). intros Hne.
  destruct (PurePath.compare p q) eqn:H; cbn; try congruence.
  apply path_compare_eq in H. contradiction.
Qed.

Lemma insert_In (x y : Path) (l : list Path) :
  In x (insert y l) <-> x = y \/ In x l.
Proof.
  induction l as [|a l IH]; cbn.
  - intuition congruence.
  - destruct (ltb a y); cbn; rewrite ?IH; intuition congruence.
Qed.

Lemma sorted_In (x : Path) (l : list Path) : In x (sorted l) <-> In x l.
Proof.
  induction l as [|a l IH]; cbn; [reflexivity|].
  rewrite insert_In, IH. intuition congruence.
Qed.

Lemma insert_sorted (x : Path) (l : list Path) :
  StronglySorted path_lt l -> ~ In x l -> StronglySorted path_lt (insert x l).
Proof.
  intros Hs. induction Hs as [|a l Hs IH Ha]; intros Hx; cbn.
  - repeat constructor.
  - destruct (ltb a x) eqn:Hax.
    + constructor.
      * apply IH. intros H. apply Hx. now right.
      * apply Forall_forall. intros z Hz. apply insert_In in Hz.
        destruct Hz as [-> | Hz]; [exact Hax|].
        rewrite Forall_forall in Ha. now apply Ha.
    + assert (Hxa : path_lt x a).
      { apply ltb_total; [|exact Hax]. intros ->. apply Hx. now left. }
      constructor; [now constructor|].
      constructor; [exact Hxa|].
      apply Forall_forall. intros z Hz. rewrite Forall_forall in Ha.
      exact (@ltb_trans _ _ _ Hxa (Ha z Hz)).
Qed.

Lemma sorted_strict (l : list Path) :
  NoDup l -> StronglySorted path_lt (sorted l).
Proof.
  induction 1 as [|a l Ha _ IH]; cbn; [constructor|].
  apply insert_sorted; [exact IH|]. now rewrite sorted_In.
Qed.

Lemma strict_sorted_NoDup (l : list Path) :
  StronglySorted path_lt l -> NoDup l.
Proof.
  induction 1 as [|a l _ IH Ha]; constructor; [|exact IH].
  intros Hin. rewrite Forall_forall in Ha. specialize (Ha a Hin).
  unfold path_lt in Ha. rewrite ltb_irrefl in Ha. discriminate.
Qed.

(** A set of paths has one strictly sorted enumeration. *)
Lemma strict_sorted_unique (l1 l2 : list Path) :
  StronglySorted path_lt l1 -> StronglySorted path_lt l2 ->
  (forall x, In x l1 <-> In x l2) -> l1 = l2.
Proof.
  intros H1. revert l2.
  induction H1 as [|a l1 Hs1 IH Ha]; intros l2 H2 Hsame.
  - destruct l2 as [|b l2]; [reflexivity|].
    exfalso. apply (proj2 (Hsame b)). now left.
  - destruct H2 as [|b l2 Hs2 Hb].
    + exfalso. apply (proj1 (Hsame a)). now left.
    + rewrite Forall_forall in Ha, Hb.
      assert (Hab : a = b).
      { destruct (proj1 (Hsame a) (or_introl eq_refl)) as [Hba | Hin2];
          [now symmetry|].
        destruct (proj2 (Hsame b) (or_introl eq_refl)) as [Hab | Hin1];
          [exact Hab|].
        pose proof (Hb a Hin2) as Hlt1. pose proof (Ha b Hin1) as Hlt2.
        unfold path_lt in *. rewrite (@ltb_asym _ _ Hlt1) in Hlt2. discriminate. }
      subst b. f_equal. apply IH; [exact Hs2|].
      intros x. split; intros Hx.
      * destruct (proj1 (Hsame x) (or_intror Hx)) as [<- | H]; [|exact H].
        specialize (Ha a Hx). unfold path_lt in Ha.
        rewrite ltb_irrefl in Ha. discriminate.
      * destruct (proj2 (Hsame x) (or_intror Hx)) as [<- | H]; [|exact H].
        specialize (Hb a Hx). unfold path_lt in Hb.
        rewrite ltb_irrefl in Hb. discriminate.
Qed.

(** [sorted] does not depend on the order in which a set is enumerated. *)
Lemma sorted_of_set (l1 l2 : list Path) :
  NoDup l1 -> NoDup l2 -> (forall x, In x l1 <-> In x l2) ->
  sorted l1 = sorted l2.
Proof.
  intros H1 H2 Hsame. apply strict_sorted_unique.
  - now apply sorted_strict.
  - now apply sorted_strict.
  - intros x. rewrite !sorted_In. apply Hsame.
Qed.

(** ** Discovery of the documents *)

Section DiscoveryFacts.

Variable w : World.
Hypothesis Hset : set_iter_ok (set_iter w).

Lemma iter_doc_files_In (p : Path) :
  In p (iter_doc_files w) <->
  is_file w p = true
  /\ exists pattern, In pattern DOC_GLOBS /\ In p (glob w (ROOT w) pattern).
Proof.
  unfold iter_doc_files. cbv zeta.
  rewrite sorted_In, (proj2 (Hset _) p), filter_In, in_flat_map.
  intuition.
Qed.

Lemma iter_doc_files_sorted : StronglySorted path_lt (iter_doc_files w).
Proof.
  unfold iter_doc_files. cbv zeta. apply sorted_strict. apply Hset.
Qed.


End DiscoveryFacts.


(** ** The loop over the files *)

Section FilesFacts.

Variable w : World.

Lemma scan_files_cons (path : Path) (rest : list Path) (st : Locals) :
  scan_files w (path :: rest) st
  = match read_text w path with
    | Raise e => ([], Raise e)
    | Return text =>
        match scan_text w path text st with
        | Raise e => ([], Raise e)
        | Return st' => scan_files w rest st'
        end
    end.
Proof.
  cbn [scan_files]. unfold lift, bind.
  destruct (read_text w path) as [text|e]; [|reflexivity].
  destruct (scan_text w path text st) as [st'|e]; [|reflexivity].
  now destruct (scan_files w rest st').
Qed.

(** The loop over the files prints nothing. *)
Lemma scan_files_silent (files : list Path) :
  forall st, fst (scan_files w files st) = [].
Proof.
  induction files as [|path files IH]; intros st; [reflexivity|].
  rewrite scan_files_cons.
  destruct (read_text w path) as [text|e]; [|reflexivity].
  destruct (scan_text w path text st) as [st'|e]; [apply IH | reflexivity].
Qed.

Lemma scan_files_app (l1 l2 : list Path) :
  forall st, scan_files w (l1 ++ l2) st
             = bind (scan_files w l1 st) (scan_files w l2).
Proof.
  induction l1 as [|path l1 IH]; intros st.
  - cbn [app scan_files ret bind]. now destruct (scan_files w l2 st).
  - cbn [app]. rewrite !scan_files_cons.
    destruct (read_text w path) as [text|e]; [|reflexivity].
    destruct (scan_text w path text st) as [st'|e]; [apply IH | reflexivity].
Qed.

Lemma scan_files_ok (files : list Path) :
  (forall p, In p files -> exists text, read_text w p = Return text) ->
  (forall p, In p files -> doc_checks_ok w p (text_of w p)) ->
  forall st, exists st',
    scan_files w files st = ([], Return st')
    /\ missing_links st'
       = missing_links st
         ++ flat_map (fun path => doc_missing w path (text_of w path)) files
    /\ legacy_refs st'
       = legacy_refs st
         ++ flat_map (fun path => doc_legacy path (text_of w path)) files.
Proof.
  induction files as [|path files IH]; intros Hread Hok st.
  - exists st. cbn. now rewrite !app_nil_r.
  - destruct (Hread path (or_introl eq_refl)) as [text Htext].
    assert (Ht : text_of w path = text) by (unfold text_of; now rewrite Htext).
    pose proof (Hok path (or_introl eq_refl)) as Hdoc. rewrite Ht in Hdoc.
    rewrite scan_files_cons, Htext, (@scan_text_ok w path text st Hdoc).
    destruct (IH (fun p Hp => Hread p (or_intror Hp))
                 (fun p Hp => Hok p (or_intror Hp))
                 {| in_code_block := fence_after false (splitlines text);
                    missing_links := missing_links st ++ doc_missing w path text;
                    legacy_refs := legacy_refs st ++ doc_legacy path text |})
      as (st' & Hrun & Hm & Hl).
    exists st'. split; [exact Hrun|].
    rewrite Hm, Hl. cbn [missing_links legacy_refs flat_map].
    now rewrite Ht, <- !app_assoc.
Qed.


(** A file that cannot be read ends the loop in an exception: its own, that
    of a file before it that cannot be read either, or that of a link check
    in a file read before it. *)
Lemma scan_files_raise (files : list Path) (p : Path) (e : exn) :
  In p files -> read_text w p = Raise e ->
  forall st, exists e',
    scan_files w files st = ([], Raise e')
    /\ ((exists q, In q files /\ read_text w q = Raise e')
        \/ (exists q text st0,
              In q files /\ read_text w q = Return text
              /\ scan_text w q text st0 = Raise e')).
Proof.
  induction files as [|path files IH]; intros Hin Hp st; [destruct Hin|].
  rewrite scan_files_cons.
  destruct (read_text w path) as [text|e0] eqn:Hpath.
  - destruct (scan_text w path text st) as [st1|e1] eqn:Hscan.
    + destruct Hin as [-> | Hin]; [congruence|].
      destruct (IH Hin Hp st1) as (e' & Hrun & Hwhy).
      exists e'. split; [exact Hrun|].
      destruct Hwhy as [(q & Hq & Hqe) | (q & t & s0 & Hq & Hqt & Hqs)].
      * left. exists q. split; [now right | exact Hqe].
      * right. exists q, t, s0. split; [now right | split; assumption].
    + exists e1. split; [reflexivity|]. right. exists path, text, st.
      split; [now left | split; assumption].
  - exists e0. split; [reflexivity|]. left. exists path. split; [now left | exact Hpath].
Qed.


Lemma relative_to_app (root rel : Path) : relative_to (root ++ rel) root = Some rel.
Proof.
  induction root as [|x root IH]; cbn; [reflexivity|].
  now rewrite str_eqb_refl.
Qed.







End FilesFacts.






(** ** Another order of discovery *)

Section OrderFacts.

Variable w : World.
Variable glob' : Path -> str -> list Path.
Variable set_iter' : list Path -> list Path.

Lemma scan_files_discovery (files : list Path) (st : Locals) :
  scan_files (with_discovery w glob' set_iter') files st = scan_files w files st.
Proof.
  revert st. induction files as [|path files IH]; intros st; [reflexivity|].
  rewrite !scan_files_cons.
  change (read_text (with_discovery w glob' set_iter') path) with (read_text w path).
  destruct (read_text w path) as [text|e]; [|reflexivity].
  change (scan_text (with_discovery w glob' set_iter') path text st)
    with (scan_text w path text st).
  destruct (scan_text w path text st) as [st'|e]; [apply IH | reflexivity].
Qed.

Lemma print_missing_discovery (l : list MissingLink) :
  print_missing (with_discovery w glob' set_iter') l = print_missing w l.
Proof.
  induction l as [|[[path line_no] target] l IH]; [reflexivity|].
  cbn [print_missing]. rewrite IH. reflexivity.
Qed.

Lemma print_legacy_discovery (l : list LegacyRef) :
  print_legacy (with_discovery w glob' set_iter') l = print_legacy w l.
Proof.
  induction l as [|[[[path line_no] legacy] replacement] l IH]; [reflexivity|].
  cbn [print_legacy]. rewrite IH. reflexivity.
Qed.

Lemma report_discovery (missing : list MissingLink) (legacy : list LegacyRef) :
  report (with_discovery w glob' set_iter') missing legacy = report w missing legacy.
Proof.
  unfold report. now rewrite print_missing_discovery, print_legacy_discovery.
Qed.

Lemma iter_doc_files_discovery :
  set_iter_ok (set_iter w) -> set_iter_ok set_iter' ->
  (forall pattern p, In p (glob' (ROOT w) pattern) <-> In p (glob w (ROOT w) pattern)) ->
  iter_doc_files (with_discovery w glob' set_iter') = iter_doc_files w.
Proof.
  intros Hset Hset' Hglob. unfold iter_doc_files. cbv zeta.
  cbn [with_discovery ROOT glob set_iter is_file].
  apply sorted_of_set; [apply Hset' | apply Hset |].
  intros p. rewrite (proj2 (Hset' _) p), (proj2 (Hset _) p), !filter_In, !in_flat_map.
  split; intros ((pattern & Hpat & Hp) & Hfile); (split; [|exact Hfile]);
    exists pattern; (split; [exact Hpat|]); now apply Hglob.
Qed.

End OrderFacts.

(** ** The run *)


(** C8: when a discovered document cannot be read, the run ends in a
    propagated exception and has printed nothing: the exception of a
    document that cannot be read, or that of a link check in a document read
    before it. *)
Theorem unreadable_file_aborts (w : World) (p : Path) (e : exn) :
  In p (iter_doc_files w) -> read_text w p = Raise e ->
  exists e',
    main w = ([], Raise e')
    /\ ((exists q, In q (iter_doc_files w) /\ read_text w q = Raise e')
        \/ (exists q text st,
              In q (iter_doc_files w) /\ read_text w q = Return text
              /\ scan_text w q text st = Raise e')).
Proof.
  intros Hin Hp.
  destruct (@scan_files_raise w _ p e Hin Hp no_findings) as (e' & Hrun & Hwhy).
  exists e'. unfold main, bind. rewrite Hrun. split; [reflexivity | exact Hwhy].
Qed.


(** C7: the documents are scanned in one order, strictly ascending by path,
    so each once, whatever order the directory scan and the set give them
    in; on one file tree, two runs end in the same findings, the same
    output and the same status. *)
Theorem scan_deterministic (w : World)
    (glob' : Path -> str -> list Path) (set_iter' : list Path -> list Path) :
  set_iter_ok (set_iter w) -> set_iter_ok set_iter' ->
  (forall pattern p, In p (glob' (ROOT w) pattern) <-> In p (glob w (ROOT w) pattern)) ->
  let w' := with_discovery w glob' set_iter' in
  StronglySorted path_lt (iter_doc_files w)
  /\ NoDup (iter_doc_files w)
  /\ (forall p, In p (iter_doc_files w) <->
                is_file w p = true
                /\ exists pattern, In pattern DOC_GLOBS /\ In p (glob w (ROOT w) pattern))
  /\ iter_doc_files w' = iter_doc_files w
  /\ scan_files w' (iter_doc_files w') no_findings
     = scan_files w (iter_doc_files w) no_findings
  /\ main w' = main w.
Proof.
  intros Hset Hset' Hglob w'.
  pose proof (@iter_doc_files_discovery w glob' set_iter' Hset Hset' Hglob) as Hfiles.
  fold w' in Hfiles.
  split; [exact (@iter_doc_files_sorted w Hset)|].
  split; [exact (@strict_sorted_NoDup _ (@iter_doc_files_sorted w Hset))|].
  split; [exact (@iter_doc_files_In w Hset)|].
  split; [exact Hfiles|].
  assert (Hscan : scan_files w' (iter_doc_files w') no_findings
                  = scan_files w (iter_doc_files w) no_findings).
  { rewrite Hfiles. apply scan_files_discovery. }
  split; [exact Hscan|].
  unfold main. rewrite Hscan.
  destruct (scan_files w (iter_doc_files w) no_findings) as [out [st|e]];
    unfold bind; [|reflexivity].
  unfold w'. now rewrite report_discovery.
Qed.

(** ** The small file tree *)

Lemma mem_In (p : Path) (l : list Path) : Example.mem p l = true <-> In p l.
Proof.
  unfold Example.mem. rewrite existsb_exists. split.
  - intros (q & Hq & Heq). unfold path_eqb in Heq.
    destruct (PurePath.compare p q) eqn:Hc; try discriminate.
    apply path_compare_eq in Hc. now subst q.
  - intros Hp. exists p. split; [exact Hp|]. unfold path_eqb.
    now rewrite (proj2 (path_compare_eq p p) eq_refl).
Qed.

Lemma dedup_In (p : Path) (l : list Path) : In p (Example.dedup l) <-> In p l.
Proof.
  induction l as [|a l IH]; cbn; [reflexivity|].
  destruct (Example.mem a l) eqn:Ha; cbn; rewrite IH.
  - apply mem_In in Ha. intuition congruence.
  - reflexivity.
Qed.

Lemma dedup_NoDup (l : list Path) : NoDup (Example.dedup l).
Proof.
  induction l as [|a l IH]; cbn; [constructor|].
  destruct (Example.mem a l) eqn:Ha; [exact IH|].
  constructor; [|exact IH]. rewrite dedup_In. intros Hin.
  apply mem_In in Hin. congruence.
Qed.

Lemma example_set_ok : set_iter_ok Example.set_dedup.
Proof.
  intros l. split; [apply dedup_NoDup | intros p; apply dedup_In].
Qed.

Lemma example_set_rev_ok : set_iter_ok Example.set_dedup_rev.
Proof.
  intros l. unfold Example.set_dedup_rev. split.
  - apply NoDup_rev, dedup_NoDup.
  - intros p. rewrite <- in_rev. apply dedup_In.
Qed.



Lemma example_glob_rev (pattern : str) (p : Path) :
  In p (Example.glob_tree_rev (ROOT Example.world) pattern)
  <-> In p (glob Example.world (ROOT Example.world) pattern).
Proof.
  cbn [Example.world glob ROOT]. unfold Example.glob_tree_rev, Example.glob_tree.
  destruct (Str.eqb pattern (py "Docs/**/*.md")); [cbn; tauto|].
  destruct (Str.eqb pattern (py "README.md")); cbn; tauto.
Qed.





Lemma unreadable_file_aborts_witness :
  exists e',
    main Example.broken_world = ([], Raise e')
    /\ ((exists q, In q (iter_doc_files Example.broken_world)
                   /\ read_text Example.broken_world q = Raise e')
        \/ (exists q text st,
              In q (iter_doc_files Example.broken_world)
              /\ read_text Example.broken_world q = Return text
              /\ scan_text Example.broken_world q text st = Raise e')).
Proof.
  apply (@unreadable_file_aborts Example.broken_world Example.guide UnicodeDecodeError).
  - vm_compute. left. reflexivity.
  - reflexivity.
Defined.

Lemma scan_deterministic_witness :
  iter_doc_files
    (with_discovery Example.world Example.glob_tree_rev Example.set_dedup_rev)
  = [Example.guide; Example.readme]
  /\ main (with_discovery Example.world Example.glob_tree_rev Example.set_dedup_rev)
     = main Example.world.
Proof.
  pose proof (@scan_deterministic Example.world Example.glob_tree_rev
                Example.set_dedup_rev example_set_ok example_set_rev_ok
                example_glob_rev) as H.
  destruct H as (_ & _ & _ & Hfiles & _ & Hmain).
  split; [exact Hfiles | exact Hmain].
Defined.

(** ** Concrete runs *)

Example normalize_target_examples :
  normalize_target Example.world (py " <a%20b.md#x?y> ") = Some (py "a b.md")
  /\ normalize_target Example.world (py "<http://example.com/missing>") = None
  /\ normalize_target Example.world (py "#section") = None
  /\ normalize_target Example.world (py "?query") = None
  /\ normalize_target Example.world (py "   ") = None
  /\ normalize_target Example.world (py "<>") = None
  /\ normalize_target Example.world (py "../README.md") = Some (py "../README.md").
Proof. repeat split; vm_compute; reflexivity. Qed.

Example finditer_examples :
  finditer (py "see [a](b.md) and [x[y](z) () [q]() [w](e)(r) [](t")
  = [py "b.md"; py "z"; py "e"]
  /\ finditer (py "[text](./missing-file.md)") = [py "./missing-file.md"]
  /\ finditer (py "no link here [a] (b)") = [].
Proof. repeat split; vm_compute; reflexivity. Qed.

Example splitlines_examples :
  splitlines (py "a" ++ [13; 10]%N ++ py "b" ++ [10; 10]%N ++ py "c" ++ [13]%N)
  = [py "a"; py "b"; []; py "c"]
  /\ splitlines [] = [].
Proof. repeat split; vm_compute; reflexivity. Qed.

Example resolve_target_examples :
  resolve_target Example.world [py "repo"; py "Docs"] (py "../README.md")
  = Return Example.readme
  /\ resolve_target Example.world [py "repo"; py "Docs"] (py "//Docs/./guide.md")
     = Return Example.guide
  /\ resolve_target Example.world [py "repo"] (py "./missing-file.md")
     = Return [py "repo"; py "missing-file.md"].
Proof. repeat split; vm_compute; reflexivity. Qed.

Example main_clean_tree :
  main Example.clean_world = ([OK_LINE], Return 0%Z).
Proof. vm_compute. reflexivity. Qed.

(** A file that ends inside a fence, then a file with a link to no file. *)
Example unclosed_fence_then_next_file :
  scan_text Example.world Example.guide
    (py "```" ++ Example.lf ++ py "[x](nowhere.md)") no_findings
  = Return {| in_code_block := true; missing_links := []; legacy_refs := [] |}
  /\ scan_text Example.world Example.readme (py "[gone](./missing-file.md)")
       {| in_code_block := true; missing_links := []; legacy_refs := [] |}
     = Return {| in_code_block := false;
                 missing_links := [(Example.readme, 1%nat, py "./missing-file.md")];
                 legacy_refs := [] |}.
Proof. split; vm_compute; reflexivity. Qed.

(** ** White space *)

Section SpaceFacts.

Variable p : char -> bool.

Lemma dropWhile_app_all (ws l : str) :
  Forall (fun c => p c = true) ws -> dropWhile p (ws ++ l) = dropWhile p l.
Proof.
  induction 1 as [|c ws Hc _ IH]; cbn; [reflexivity|]. now rewrite Hc.
Qed.

Lemma dropWhile_all (ws : str) :
  Forall (fun c => p c = true) ws -> dropWhile p ws = [].
Proof.
  intros H. rewrite <- (app_nil_r ws). now rewrite dropWhile_app_all.
Qed.

Lemma dropWhile_idem (s : str) : dropWhile p (dropWhile p s) = dropWhile p s.
Proof.
  induction s as [|c s IH]; cbn; [reflexivity|].
  destruct (p c) eqn:Hc; [exact IH|]. cbn. now rewrite Hc.
Qed.

Lemma dropWhile_Forall (P : char -> Prop) (s : str) :
  Forall P s -> Forall P (dropWhile p s).
Proof.
  induction 1 as [|c s Hc Hs IH]; cbn; [constructor|].
  destruct (p c); [exact IH | now constructor].
Qed.

Lemma takeWhile_Forall (P : char -> Prop) (s : str) :
  Forall P s -> Forall P (takeWhile p s).
Proof.
  induction 1 as [|c s Hc Hs IH]; cbn; [constructor|].
  destruct (p c); now constructor.
Qed.

Lemma takeWhile_app_stop_at (x : str) (c : char) (r : str) :
  p c = false -> takeWhile p (x ++ c :: r) = takeWhile p x.
Proof.
  intros Hc. induction x as [|a x IH]; cbn.
  - now rewrite Hc.
  - destruct (p a); [now rewrite IH | reflexivity].
Qed.

Lemma takeWhile_app_all (r ws : str) :
  Forall (fun c => p c = true) ws ->
  takeWhile p (r ++ ws) = takeWhile p r
  \/ takeWhile p (r ++ ws) = takeWhile p r ++ ws.
Proof.
  intros Hws. induction r as [|a r IH]; cbn.
  - right. induction Hws as [|c ws Hc _ IHws]; cbn; [reflexivity|].
    rewrite Hc. now rewrite IHws.
  - destruct (p a); [|now left].
    destruct IH as [-> | ->]; [now left | now right].
Qed.

End SpaceFacts.

Lemma lstrip_space_app (ws s : str) : all_space ws -> lstrip (ws ++ s) = lstrip s.
Proof. intros H. unfold lstrip. now apply dropWhile_app_all. Qed.

Lemma rstrip_app_space (s ws : str) : all_space ws -> rstrip (s ++ ws) = rstrip s.
Proof.
  intros H. unfold rstrip. rewrite rev_app_distr, dropWhile_app_all; [reflexivity|].
  now apply Forall_rev.
Qed.

Lemma lstrip_app_space (s ws : str) :
  all_space ws -> exists ws', all_space ws' /\ lstrip (s ++ ws) = lstrip s ++ ws'.
Proof.
  intros H. unfold lstrip. induction s as [|c s IH]; cbn.
  - exists []. split; [constructor|]. now apply dropWhile_all.
  - destruct (isspace c); [exact IH|]. now exists ws.
Qed.

(** White space around a string does not change what [strip] returns. *)
Lemma strip_space_around (ws1 s ws2 : str) :
  all_space ws1 -> all_space ws2 -> strip (ws1 ++ s ++ ws2) = strip s.
Proof.
  intros H1 H2. unfold strip. rewrite lstrip_space_app by exact H1.
  destruct (lstrip_app_space s H2) as (ws' & Hws' & ->).
  now apply rstrip_app_space.
Qed.

(** [rstrip] cuts white space off the end, and nothing else. *)
Lemma rstrip_decompose (s : str) : exists ws, all_space ws /\ s = rstrip s ++ ws.
Proof.
  exists (rev (takeWhile isspace (rev s))). split.
  - apply Forall_rev, takeWhile_all.
  - unfold rstrip. rewrite <- rev_app_distr, takeWhile_dropWhile.
    now rewrite rev_involutive.
Qed.

Lemma rstrip_idem (s : str) : rstrip (rstrip s) = rstrip s.
Proof.
  unfold rstrip. now rewrite rev_involutive, dropWhile_idem.
Qed.

Lemma strip_idem (s : str) : strip (strip s) = strip s.
Proof.
  unfold strip. destruct (lstrip s) as [|c y] eqn:Hy; [reflexivity|].
  pose proof (dropWhile_head _ _ Hy) as Hc.
  rewrite (@rstrip_cons c y Hc). unfold lstrip at 1. cbn [dropWhile]. rewrite Hc.
  rewrite <- (@rstrip_cons c y Hc). apply rstrip_idem.
Qed.

Lemma strip_Forall (P : char -> Prop) (s : str) : Forall P s -> Forall P (strip s).
Proof.
  intros H. unfold strip, rstrip, lstrip.
  apply Forall_rev, dropWhile_Forall, Forall_rev, dropWhile_Forall, H.
Qed.

Lemma startswith_app_space (pre r ws : str) :
  no_space pre -> all_space ws -> startswith pre (r ++ ws) = startswith pre r.
Proof.
  intros Hpre Hws. revert r.
  induction Hpre as [|a pre Ha _ IH]; intros r; [now destruct r|].
  destruct r as [|c r]; cbn [app startswith].
  - destruct Hws as [|b ws Hb _]; [reflexivity|]. cbn [startswith].
    destruct (N.eqb_spec a b) as [-> | _]; [congruence | reflexivity].
  - now rewrite IH.
Qed.

(** A prefix without white space is seen before and after [rstrip] alike. *)
Lemma startswith_rstrip (pre s : str) :
  no_space pre -> startswith pre (rstrip s) = startswith pre s.
Proof.
  intros Hpre. destruct (rstrip_decompose s) as (ws & Hws & Hs).
  rewrite Hs at 2. symmetry. now apply startswith_app_space.
Qed.

Lemma startswith_app_refl (pre rest : str) : startswith pre (pre ++ rest) = true.
Proof.
  induction pre as [|a pre IH]; cbn; [reflexivity|]. now rewrite N.eqb_refl.
Qed.

Lemma startswith_app_other (pre x : str) (c : char) (r : str) :
  Forall (fun a => a <> c) pre ->
  startswith pre (x ++ c :: r) = startswith pre x.
Proof.
  intros Hpre. revert x. induction Hpre as [|a pre Ha _ IH]; intros x;
    [now destruct x|].
  destruct x as [|y x]; cbn [app startswith].
  - destruct (N.eqb_spec a c); [contradiction | reflexivity].
  - now rewrite IH.
Qed.

(** ** Fence lines *)

Lemma fence_prefixes_no_space : no_space (py "```") /\ no_space (py "~~~").
Proof. split; repeat constructor. Qed.

(** X1: whether a line is a fence line is decided by what follows its
    indentation: the white space before the marker and the text after it
    (an info string, a link, anything) play no part. *)
Theorem is_fence_after_indent (line ws rest : str) :
  is_fence line
  = (startswith (py "```") (lstrip line) || startswith (py "~~~") (lstrip line))
  /\ (all_space ws ->
      is_fence (ws ++ py "```" ++ rest) = true
      /\ is_fence (ws ++ py "~~~" ++ rest) = true).
Proof.
  destruct fence_prefixes_no_space as [Hb Ht].
  assert (Hgen : forall l, is_fence l
            = (startswith (py "```") (lstrip l) || startswith (py "~~~") (lstrip l))).
  { intros l. unfold is_fence, strip. cbv zeta.
    now rewrite (startswith_rstrip (lstrip l) Hb), (startswith_rstrip (lstrip l) Ht). }
  split; [apply Hgen|].
  intros Hws. rewrite !Hgen.
  rewrite (lstrip_space_app (py "```" ++ rest) Hws).
  rewrite (lstrip_space_app (py "~~~" ++ rest) Hws).
  split.
  - replace (lstrip (py "```" ++ rest)) with (py "```" ++ rest) by reflexivity.
    now rewrite startswith_app_refl.
  - replace (lstrip (py "~~~" ++ rest)) with (py "~~~" ++ rest) by reflexivity.
    rewrite (startswith_app_refl (py "~~~") rest). apply orb_true_r.
Qed.

Lemma fence_after_parity (b : bool) (lines : list str) :
  fence_after b lines = xorb b (Nat.odd (List.length (filter is_fence lines))).
Proof.
  revert b. induction lines as [|l lines IH]; intros b.
  - cbn. now destruct b.
  - rewrite fence_after_cons, IH. cbn [filter].
    destruct (is_fence l); [|reflexivity].
    cbn [List.length]. rewrite Nat.odd_succ, <- Nat.negb_odd.
    destruct b, (Nat.odd (List.length (filter is_fence lines))); reflexivity.
Qed.

Lemma fence_after_even (lines : list str) (i : nat) :
  fence_after false (firstn i lines) = false
  <-> Nat.even (fences_before lines i) = true.
Proof.
  rewrite fence_after_parity. unfold fences_before. cbn [xorb].
  rewrite <- Nat.negb_odd.
  destruct (Nat.odd (List.length (filter is_fence (firstn i lines)))); cbn;
    split; congruence.
Qed.


(** X2: the fence state is the parity of the fence lines met so far in the
    file: after the first [i] lines it is true exactly when an odd number of
    them are fence lines, of whatever marker; at the end of the file it is
    the parity of all the fence lines; when the scan of the file returns, so
    has the scan of each of its prefixes. *)
Theorem fence_state_is_parity (w : World) (path : Path) (text : str)
    (st : Locals) (i : nat) :
  let before := scan_lines w path (enter_file st)
                  (firstn i (enumerate1 (splitlines text))) in
  (forall sti, before = Return sti ->
     in_code_block sti = Nat.odd (fences_before (splitlines text) i))
  /\ (forall st', scan_text w path text st = Return st' ->
        in_code_block st' = Nat.odd (List.length (filter is_fence (splitlines text)))
        /\ exists sti, before = Return sti)
  /\ (doc_checks_ok w path text -> exists st', scan_text w path text st = Return st').
Proof.
  intros before. split; [|split].
  - intros sti Hrun. unfold before in Hrun.
    rewrite (@scan_lines_prefix_fence w path (splitlines text) st sti i Hrun).
    rewrite fence_after_parity. reflexivity.
  - intros st' Hrun. split.
    + destruct (@scan_text_return w path text st st' Hrun) as [_ ->].
      cbn [in_code_block]. rewrite fence_after_parity. reflexivity.
    + unfold scan_text, scan_lines in Hrun.
      rewrite <- (firstn_skipn i (enumerate1 (splitlines text))) in Hrun.
      rewrite for_each_app in Hrun. unfold before, scan_lines.
      destruct (for_each (scan_line w path)
                  (firstn i (enumerate1 (splitlines text))) (enter_file st))
        as [sti|e]; [now exists sti | discriminate].
  - intros Hok. eexists. exact (@scan_text_ok w path text st Hok).
Qed.

(** The lines that are checked, the other way round. *)
Lemma checked_lines_In_conv (lines : list str) :
  forall s b i line,
    nth_error lines i = Some line ->
    is_fence line = false ->
    fence_after b (firstn i lines) = false ->
    In ((s + i)%nat, line) (checked_lines b (combine (seq s (List.length lines)) lines)).
Proof.
  induction lines as [|l lines IH]; intros s b [|i] line Hn Hf Hb;
    cbn [nth_error] in Hn; try discriminate.
  - inversion Hn; subst l. cbn in Hb. subst b.
    cbn [List.length seq combine checked_lines]. rewrite Hf, Nat.add_0_r. now left.
  - cbn [firstn] in Hb. rewrite fence_after_cons in Hb.
    cbn [List.length seq combine checked_lines].
    replace (s + S i)%nat with (S s + i)%nat by lia.
    destruct (is_fence l).
    + now apply IH.
    + destruct b; [now apply IH | right; now apply IH].
Qed.

Lemma checked_lines_iff (lines : list str) (k : nat) (line : str) :
  In (k, line) (checked_lines false (enumerate1 lines))
  <-> exists i, k = S i /\ nth_error lines i = Some line
                /\ is_fence line = false
                /\ Nat.even (fences_before lines i) = true.
Proof.
  unfold enumerate1. split.
  - intros H. apply checked_lines_In in H.
    destruct H as (i & -> & Hn & Hf & Hb). exists i.
    repeat split; try assumption. now apply fence_after_even.
  - intros (i & -> & Hn & Hf & Hb). apply fence_after_even in Hb.
    exact (checked_lines_In_conv lines 1 false i Hn Hf Hb).
Qed.


(** ** The findings of a document *)

(** X3: when the scan of a document returns, it reports a missing link at a
    line exactly when that line of the file is no fence line, an even number
    of fence lines stands before it, the line holds a link with that raw
    target, the target is not discarded, it resolves to a path and
    [exists()] returns [False] for that path; the finding names the scanned
    file, and the findings collected before stay. *)
Theorem missing_finding_iff (w : World) (path : Path) (text : str)
    (st st' : Locals) (p : Path) (k : nat) (raw_target : str) :
  scan_text w path text st = Return st' ->
  In (p, k, raw_target) (missing_links st')
  <-> In (p, k, raw_target) (missing_links st)
      \/ (p = path
          /\ exists i line target candidate,
               k = S i
               /\ nth_error (splitlines text) i = Some line
               /\ is_fence line = false
               /\ Nat.even (fences_before (splitlines text) i) = true
               /\ In raw_target (finditer line)
               /\ normalize_target w raw_target = Some target
               /\ resolve_target w (parent path) target = Return candidate
               /\ exists_ w candidate = Return false).
Proof.
  intros Hrun. destruct (@scan_text_return w path text st st' Hrun) as [_ ->].
  cbn [missing_links]. rewrite in_app_iff.
  apply or_iff_compat_l. unfold doc_missing. rewrite in_flat_map. split.
  - intros ([k' line] & Hchecked & Hline).
    unfold line_missing in Hline. cbn [fst snd] in Hline.
    apply in_map_iff in Hline. destruct Hline as (raw & Heq & Hraw).
    inversion Heq; subst. apply filter_In in Hraw. destruct Hraw as [Hin Hmiss].
    apply checked_lines_iff in Hchecked.
    destruct Hchecked as (i & -> & Hn & Hf & Hb).
    split; [reflexivity|].
    apply link_is_missing_iff in Hmiss.
    destruct Hmiss as (target & candidate & Hnorm & Hres & Hgone).
    exists i, line, target, candidate. repeat split; assumption.
  - intros (-> & i & line & target & candidate & -> & Hn & Hf & Hb & Hin
            & Hnorm & Hres & Hgone).
    exists (S i, line). split.
    + apply checked_lines_iff. exists i. repeat split; assumption.
    + unfold line_missing. cbn [fst snd].
      apply (in_map (fun raw => (path, S i, raw))). apply filter_In.
      split; [exact Hin|]. apply link_is_missing_iff.
      now exists target, candidate.
Qed.

Lemma missing_finding_iff_witness :
  exists st',
    scan_text Example.world Example.readme Example.readme_text no_findings
    = Return st'
    /\ (In (Example.readme, 2%nat, py "./missing-file.md") (missing_links st')
        <-> In (Example.readme, 2%nat, py "./missing-file.md")
               (missing_links no_findings)
            \/ (Example.readme = Example.readme
                /\ exists i line target candidate,
                     2%nat = S i
                     /\ nth_error (splitlines Example.readme_text) i = Some line
                     /\ is_fence line = false
                     /\ Nat.even (fences_before (splitlines Example.readme_text) i)
                        = true
                     /\ In (py "./missing-file.md") (finditer line)
                     /\ normalize_target Example.world (py "./missing-file.md")
                        = Some target
                     /\ resolve_target Example.world (parent Example.readme) target
                        = Return candidate
                     /\ exists_ Example.world candidate = Return false)).
Proof.
  eexists. split.
  - vm_compute. reflexivity.
  - apply (@missing_finding_iff Example.world Example.readme Example.readme_text
             no_findings).
    vm_compute. reflexivity.
Defined.

(** X4: when the scan of a document returns, it reports a legacy reference
    at a line exactly when the pair is in the table, the line of the file is
    no fence line, an even number of fence lines stands before it and the
    line contains the legacy path; the finding names the scanned file, and
    the findings collected before stay. *)
Theorem legacy_finding_iff (w : World) (path : Path) (text : str)
    (st st' : Locals) (p : Path) (k : nat) (legacy replacement : str) :
  scan_text w path text st = Return st' ->
  In (p, k, legacy, replacement) (legacy_refs st')
  <-> In (p, k, legacy, replacement) (legacy_refs st)
      \/ (p = path
          /\ In (legacy, replacement) LEGACY_PATHS
          /\ exists i line,
               k = S i
               /\ nth_error (splitlines text) i = Some line
               /\ is_fence line = false
               /\ Nat.even (fences_before (splitlines text) i) = true
               /\ contains legacy line = true).
Proof.
  intros Hrun. destruct (@scan_text_return w path text st st' Hrun) as [_ ->].
  cbn [legacy_refs]. rewrite in_app_iff.
  apply or_iff_compat_l. unfold doc_legacy. rewrite in_flat_map. split.
  - intros ([k' line] & Hchecked & Hline).
    unfold line_legacy in Hline. cbn [fst snd] in Hline.
    apply in_map_iff in Hline. destruct Hline as ([key repl] & Heq & Hkv).
    cbn [fst snd] in Heq. inversion Heq; subst.
    apply filter_In in Hkv. destruct Hkv as [Hin Hsub]. cbn [fst] in Hsub.
    apply checked_lines_iff in Hchecked.
    destruct Hchecked as (i & -> & Hn & Hf & Hb).
    split; [reflexivity|]. split; [exact Hin|].
    exists i, line. repeat split; assumption.
  - intros (-> & Hin & i & line & -> & Hn & Hf & Hb & Hsub).
    exists (S i, line). split.
    + apply checked_lines_iff. exists i. repeat split; assumption.
    + unfold line_legacy. cbn [fst snd].
      apply (in_map (fun kv : str * str => (path, S i, fst kv, snd kv))
                    _ (legacy, replacement)).
      apply filter_In. split; assumption.
Qed.

Lemma legacy_finding_iff_witness :
  exists st',
    scan_text Example.world Example.guide Example.guide_text no_findings
    = Return st'
    /\ (In (Example.guide, 5%nat, py "Views/OnboardingFlowView.swift",
            py "Views/Onboarding/OnboardingFlowView.swift") (legacy_refs st')
        <-> In (Example.guide, 5%nat, py "Views/OnboardingFlowView.swift",
                py "Views/Onboarding/OnboardingFlowView.swift")
               (legacy_refs no_findings)
            \/ (Example.guide = Example.guide
                /\ In (py "Views/OnboardingFlowView.swift",
                       py "Views/Onboarding/OnboardingFlowView.swift") LEGACY_PATHS
                /\ exists i line,
                     5%nat = S i
                     /\ nth_error (splitlines Example.guide_text) i = Some line
                     /\ is_fence line = false
                     /\ Nat.even (fences_before (splitlines Example.guide_text) i)
                        = true
                     /\ contains (py "Views/OnboardingFlowView.swift") line = true)).
Proof.
  eexists. split.
  - vm_compute. reflexivity.
  - apply (@legacy_finding_iff Example.world Example.guide Example.guide_text
             no_findings).
    vm_compute. reflexivity.
Defined.

(** ** The links of a line *)

Lemma link_text_app (label target post : str) :
  link_text label target ++ post
  = chr "[" :: label ++ chr "]" :: chr "(" :: target ++ chr ")" :: post.
Proof.
  unfold link_text. cbn [app]. rewrite <- app_assoc. cbn [app].
  now rewrite <- app_assoc.
Qed.

Lemma finditer_nil : finditer [] = [].
Proof. reflexivity. Qed.

Lemma match_here_other (c : char) (s : str) :
  c <> chr "[" -> match_here (c :: s) = None.
Proof.
  intros Hc. unfold match_here. destruct (N.eqb_spec c (chr "[")); [contradiction|].
  reflexivity.
Qed.

Lemma finditer_In_bounded (n : nat) :
  forall s, (List.length s <= n)%nat ->
  forall target, In target (finditer s) ->
  exists pre label post,
    s = pre ++ link_text label target ++ post
    /\ Forall (fun c => c <> chr "]") label
    /\ target <> []
    /\ Forall (fun c => c <> chr ")") target.
Proof.
  induction n as [|n IH]; intros s Hlen target Hin.
  - destruct s; [destruct Hin | cbn in Hlen; lia].
  - rewrite finditer_unfold in Hin.
    destruct (match_here s) as [[found rest]|] eqn:Hm.
    + apply match_here_Some in Hm.
      destruct Hm as (label & Hs & Hlabel & Hne & Hfound).
      rewrite <- link_text_app in Hs.
      destruct Hin as [<- | Hin].
      * exists [], label, rest. repeat split; assumption.
      * assert (Hrest : (List.length rest <= n)%nat).
        { rewrite Hs, length_app in Hlen. unfold link_text in Hlen.
          cbn [List.length] in Hlen. lia. }
        destruct (IH rest Hrest target Hin) as (pre & lab & post & Hr & H1 & H2 & H3).
        exists (link_text label found ++ pre), lab, post.
        rewrite Hs, Hr, <- app_assoc. repeat split; assumption.
    + destruct s as [|c s']; [destruct Hin|].
      assert (Hs' : (List.length s' <= n)%nat) by (cbn in Hlen; lia).
      destruct (IH s' Hs' target Hin) as (pre & lab & post & Hr & H1 & H2 & H3).
      exists (c :: pre), lab, post. rewrite Hr. repeat split; assumption.
Qed.

(** X5: every target that [LINK_RE.finditer] yields for a line stands in
    the line as [[label](target)], with no []] in the label; it is not
    empty and holds no [)]. *)
Theorem finditer_target_occurs (line target : str) :
  In target (finditer line) ->
  exists pre label post,
    line = pre ++ link_text label target ++ post
    /\ Forall (fun c => c <> chr "]") label
    /\ target <> []
    /\ Forall (fun c => c <> chr ")") target.
Proof.
  intros Hin.
  exact (@finditer_In_bounded (List.length line) line (le_n _) target Hin).
Qed.

Lemma finditer_target_occurs_witness :
  exists pre label post,
    py "see [the guide](Docs/guide.md) first"
    = pre ++ link_text label (py "Docs/guide.md") ++ post
    /\ Forall (fun c => c <> chr "]") label
    /\ py "Docs/guide.md" <> []
    /\ Forall (fun c => c <> chr ")") (py "Docs/guide.md").
Proof.
  apply (@finditer_target_occurs (py "see [the guide](Docs/guide.md) first")
           (py "Docs/guide.md")).
  vm_compute. left. reflexivity.
Defined.

(** X6: in a line, the text before the first [[] holds no link, and a link
    [[label](target)] that follows it is the first match; the search goes on
    after its closing parenthesis. *)
Theorem finditer_first_link (pre label target post : str) :
  Forall (fun c => c <> chr "[") pre ->
  Forall (fun c => c <> chr "]") label ->
  target <> [] ->
  Forall (fun c => c <> chr ")") target ->
  finditer pre = []
  /\ finditer (pre ++ link_text label target ++ post) = target :: finditer post.
Proof.
  intros Hpre Hlabel Hne Htarget.
  induction Hpre as [|c pre Hc _ [IH1 IH2]].
  - split; [reflexivity|]. cbn [app]. rewrite finditer_unfold.
    assert (Hm : match_here (link_text label target ++ post) = Some (target, post)).
    { apply match_here_Some. exists label. rewrite link_text_app.
      repeat split; assumption. }
    now rewrite Hm.
  - split.
    + rewrite finditer_unfold, (match_here_other _ Hc). exact IH1.
    + cbn [app]. rewrite finditer_unfold, (match_here_other _ Hc). exact IH2.
Qed.

Lemma finditer_first_link_witness :
  finditer (py "see " ++ link_text (py "a [b") (py "c.md#d") ++ py " and [e](f)")
  = py "c.md#d" :: finditer (py " and [e](f)").
Proof.
  refine (proj2 (@finditer_first_link (py "see ") (py "a [b") (py "c.md#d")
                   (py " and [e](f)") _ _ _ _)).
  - repeat constructor; discriminate.
  - repeat constructor; discriminate.
  - discriminate.
  - repeat constructor; discriminate.
Defined.

(** ** The order of the report *)

Section SortedFacts.

Variables A B : Type.
Variable R : A -> A -> Prop.
Variable R' : B -> B -> Prop.




End SortedFacts.







(** ** Runs that stop, runs that end *)

Lemma scan_files_first_raise (w : World) (pre : list Path) (p : Path)
    (post : list Path) (e : exn) :
  (forall q, In q pre -> exists text, read_text w q = Return text) ->
  (forall q, In q pre -> doc_checks_ok w q (text_of w q)) ->
  read_text w p = Raise e ->
  forall st, scan_files w (pre ++ p :: post) st = ([], Raise e).
Proof.
  intros Hpre Hchecks Hp st. rewrite scan_files_app.
  destruct (@scan_files_ok w pre Hpre Hchecks st) as (st' & Hrun & _).
  rewrite Hrun. unfold bind. rewrite scan_files_cons, Hp. reflexivity.
Qed.

(** X8: the documents are read in the order of discovery, and the first
    one that cannot be read ends the run with its own error and no output,
    whatever was found in the documents before it, in which no check of a
    link has raised, and whatever the documents after it hold. *)
Theorem first_unreadable_file_decides (w : World) (pre : list Path) (p : Path)
    (post : list Path) (e : exn) :
  iter_doc_files w = pre ++ p :: post ->
  (forall q, In q pre -> exists text, read_text w q = Return text) ->
  (forall q, In q pre -> doc_checks_ok w q (text_of w q)) ->
  read_text w p = Raise e ->
  main w = ([], Raise e).
Proof.
  intros Hfiles Hpre Hchecks Hp. unfold main. rewrite Hfiles.
  unfold bind at 1.
  now rewrite (@scan_files_first_raise w pre p post e Hpre Hchecks Hp no_findings).
Qed.

Lemma locked_guide_checks_ok :
  forall q, In q [Example.guide] ->
            doc_checks_ok readme_locked_world q (text_of readme_locked_world q).
Proof.
  intros q [<- | []]. intros k line Hline. vm_compute in Hline.
  repeat (destruct Hline as [Hline | Hline]; [inversion Hline; subst; clear Hline|]);
    try destruct Hline;
    intros raw Hraw; vm_compute in Hraw;
    repeat (destruct Hraw as [<- | Hraw]; [eexists; vm_compute; reflexivity|]);
    destruct Hraw.
Qed.

Lemma first_unreadable_file_decides_witness :
  main readme_locked_world = ([], Raise OSError).
Proof.
  apply (@first_unreadable_file_decides readme_locked_world
           [Example.guide] Example.readme [] OSError).
  - vm_compute. reflexivity.
  - intros q [<- | []]. exists Example.guide_text. reflexivity.
  - exact locked_guide_checks_ok.
  - reflexivity.
Defined.

Section OutputFacts.

Variable P : str -> Prop.

Lemma bind_output (A B : Type) (m : IO A) (f : A -> IO B) :
  Forall P (fst m) -> (forall a, Forall P (fst (f a))) ->
  Forall P (fst (bind m f)).
Proof.
  intros Hm Hf. destruct m as [out [a|e]]; cbn [bind fst] in *; [|exact Hm].
  specialize (Hf a). destruct (f a) as [out' r]. cbn [fst] in *.
  apply Forall_app. split; assumption.
Qed.

Lemma print_output (line : str) : P line -> Forall P (fst (print line)).
Proof. intros H. cbn. now constructor. Qed.

End OutputFacts.

Lemma bind_result (A B : Type) (m : IO A) (f : A -> IO B) :
  snd (bind m f)
  = match snd m with
    | Return a => snd (f a)
    | Raise e => Raise e
    end.
Proof.
  destruct m as [out [a|e]]; cbn [bind snd]; [|reflexivity].
  now destruct (f a).
Qed.

Definition not_ok_line (line : str) : Prop := line <> OK_LINE.

Lemma not_ok_by_head (line : str) : hd 0%N line <> chr "D" -> not_ok_line line.
Proof. intros H Heq. apply H. rewrite Heq. reflexivity. Qed.

Lemma print_missing_not_ok (w : World) (l : list MissingLink) :
  Forall not_ok_line (fst (print_missing w l)).
Proof.
  induction l as [|[[path line_no] target] l IH]; [constructor|].
  cbn [print_missing]. apply bind_output.
  - unfold rel_to_root. destruct (relative_to path (ROOT w)); constructor.
  - intros rel. apply bind_output; [|intros _; exact IH].
    apply print_output, not_ok_by_head. cbn. discriminate.
Qed.

Lemma print_legacy_not_ok (w : World) (l : list LegacyRef) :
  Forall not_ok_line (fst (print_legacy w l)).
Proof.
  induction l as [|[[[path line_no] legacy] replacement] l IH]; [constructor|].
  cbn [print_legacy]. apply bind_output.
  - unfold rel_to_root. destruct (relative_to path (ROOT w)); constructor.
  - intros rel. apply bind_output; [|intros _; exact IH].
    apply print_output, not_ok_by_head. cbn. discriminate.
Qed.

(** What [report] prints and returns, by cases on the findings. *)
Lemma report_shape (w : World) (missing : list MissingLink) (legacy : list LegacyRef) :
  (missing = [] /\ legacy = [] /\ report w missing legacy = ([OK_LINE], Return 0%Z))
  \/ ((missing <> [] \/ legacy <> [])
      /\ Forall not_ok_line (fst (report w missing legacy))
      /\ (snd (report w missing legacy) = Return 1%Z
          \/ exists e, snd (report w missing legacy) = Raise e)).
Proof.
  assert (Hsection : forall (nonempty : bool) (heading : str) (body : IO unit),
            hd 0%N heading <> chr "D" -> Forall not_ok_line (fst body) ->
            Forall not_ok_line
              (fst (if nonempty
                    then bind (print heading)
                           (fun _ => bind body (fun _ => print []))
                    else ret tt))).
  { intros nonempty heading body Hh Hb. destruct nonempty; [|constructor].
    apply bind_output; [now apply print_output, not_ok_by_head|].
    intros _. apply bind_output; [exact Hb|].
    intros _. apply print_output, not_ok_by_head. cbn. discriminate. }
  destruct missing as [|m missing], legacy as [|l legacy].
  - left. repeat split.
  - right. split; [right; discriminate|]. split.
    + unfold report. apply bind_output.
      * apply Hsection; [cbn; discriminate | apply print_missing_not_ok].
      * intros _. apply bind_output.
        -- apply Hsection; [cbn; discriminate | apply print_legacy_not_ok].
        -- intros _. constructor.
    + unfold report. cbn [is_nil negb orb]. repeat rewrite bind_result.
      cbn [ret snd print].
      destruct (snd (print_legacy w (l :: legacy))) as [[]|e];
        [left; reflexivity | right; now exists e].
  - right. split; [left; discriminate|]. split.
    + unfold report. apply bind_output.
      * apply Hsection; [cbn; discriminate | apply print_missing_not_ok].
      * intros _. apply bind_output.
        -- apply Hsection; [cbn; discriminate | apply print_legacy_not_ok].
        -- intros _. constructor.
    + unfold report. cbn [is_nil negb orb]. repeat rewrite bind_result.
      cbn [ret snd print].
      destruct (snd (print_missing w (m :: missing))) as [[]|e];
        [left; reflexivity | right; now exists e].
  - right. split; [left; discriminate|]. split.
    + unfold report. apply bind_output.
      * apply Hsection; [cbn; discriminate | apply print_missing_not_ok].
      * intros _. apply bind_output.
        -- apply Hsection; [cbn; discriminate | apply print_legacy_not_ok].
        -- intros _. constructor.
    + unfold report. cbn [is_nil negb orb]. repeat rewrite bind_result.
      cbn [ret snd print].
      destruct (snd (print_missing w (m :: missing))) as [[]|e];
        [|right; now exists e].
      destruct (snd (print_legacy w (l :: legacy))) as [[]|e];
        [left; reflexivity | right; now exists e].
Qed.


(** X9: whenever [main] returns, the scan has printed nothing and the
    status is 0 or 1: with status 0 there is no finding and the output is the
    success line alone; with status 1 there is a finding and the success line
    is nowhere in the output. *)
Theorem main_status_and_success_line (w : World) (out : list str) (z : Z) :
  main w = (out, Return z) ->
  exists st,
    scan_files w (iter_doc_files w) no_findings = ([], Return st)
    /\ ((z = 0%Z /\ missing_links st = [] /\ legacy_refs st = []
         /\ out = [OK_LINE])
        \/ (z = 1%Z /\ (missing_links st <> [] \/ legacy_refs st <> [])
            /\ ~ In OK_LINE out)).
Proof.
  unfold main. intros Hmain.
  pose proof (@scan_files_silent w (iter_doc_files w) no_findings) as Hsilent.
  destruct (scan_files w (iter_doc_files w) no_findings) as [o [st|e]];
    cbn [fst] in Hsilent; subst o; cbn [bind] in Hmain; [|discriminate].
  exists st. split; [reflexivity|].
  destruct (report_shape w (missing_links st) (legacy_refs st))
    as [(Hm & Hl & Hrep) | (Hsome & Hout & Hres)].
  - rewrite Hrep in Hmain. cbn in Hmain. inversion Hmain; subst.
    left. repeat split; assumption.
  - destruct (report w (missing_links st) (legacy_refs st)) as [o r].
    cbn [fst snd app] in *. inversion Hmain; subst o r.
    right. destruct Hres as [Hres | [e Hres]]; [|discriminate].
    inversion Hres; subst z. split; [reflexivity|]. split; [exact Hsome|].
    intros Hin. rewrite Forall_forall in Hout. exact (Hout _ Hin eq_refl).
Qed.

Lemma main_status_and_success_line_witness :
  exists st,
    scan_files Example.clean_world (iter_doc_files Example.clean_world) no_findings
    = ([], Return st)
    /\ ((0%Z = 0%Z /\ missing_links st = [] /\ legacy_refs st = []
         /\ [OK_LINE] = [OK_LINE])
        \/ (0%Z = 1%Z /\ (missing_links st <> [] \/ legacy_refs st <> [])
            /\ ~ In OK_LINE [OK_LINE])).
Proof.
  apply (@main_status_and_success_line Example.clean_world [OK_LINE] 0%Z).
  vm_compute. reflexivity.
Defined.

(** ** Legacy paths *)

Lemma legacy_keys_NoDup : NoDup (map fst LEGACY_PATHS).
Proof.
  cbv. repeat constructor; cbn; intuition discriminate.
Qed.

Lemma NoDup_map_filter (A B : Type) (f : A -> B) (keep : A -> bool) (l : list A) :
  NoDup (map f l) -> NoDup (map f (filter keep l)).
Proof.
  induction l as [|a l IH]; cbn; [trivial|].
  intros H. inversion H as [|? ? Hnot Hrest]; subst.
  destruct (keep a); cbn; [|now apply IH].
  constructor; [|now apply IH].
  intros Hin. apply Hnot. apply in_map_iff in Hin.
  destruct Hin as (x & Hx & Hin). apply filter_In in Hin.
  apply in_map_iff. exists x. tauto.
Qed.


(** X10: one line adds at most one legacy finding for each key of the
    table, however often the key occurs in the line: when the scan of the
    line returns, the keys of the findings it has added are distinct, so
    there are at most four, each for this file and line and for a key the
    line contains. *)
Theorem legacy_once_per_key (w : World) (path : Path) (st st' : Locals)
    (line_no : nat) (line : str) :
  scan_line w path st (line_no, line) = Return st' ->
  exists added,
    legacy_refs st' = legacy_refs st ++ added
    /\ NoDup (map (fun f : LegacyRef => snd (fst f)) added)
    /\ (List.length added <= 4)%nat
    /\ forall f, In f added ->
         fst (fst (fst f)) = path /\ snd (fst (fst f)) = line_no
         /\ contains (snd (fst f)) line = true.
Proof.
  rewrite scan_line_spec.
  assert (Hnone : exists added : list LegacyRef,
            legacy_refs st = legacy_refs st ++ added
            /\ NoDup (map (fun f : LegacyRef => snd (fst f)) added)
            /\ (List.length added <= 4)%nat
            /\ forall f, In f added ->
                 fst (fst (fst f)) = path /\ snd (fst (fst f)) = line_no
                 /\ contains (snd (fst f)) line = true).
  { exists []. rewrite app_nil_r. split; [reflexivity|]. split; [constructor|].
    split; [cbn; lia|]. intros f []. }
  destruct (is_fence line).
  { intros H. inversion H. exact Hnone. }
  destruct (in_code_block st).
  { intros H. inversion H; subst st'. exact Hnone. }
  destruct (check_links w path line_no line (missing_links st)) as [m|e];
    [|discriminate].
  intros H. inversion H. cbn [legacy_refs].
  exists (line_legacy path (line_no, line)).
  split; [reflexivity|]. unfold line_legacy. cbn [fst snd].
  assert (Hkeys : map (fun f : LegacyRef => snd (fst f))
                    (map (fun kv : str * str => (path, line_no, fst kv, snd kv))
                         (filter (fun kv : str * str => contains (fst kv) line)
                                 LEGACY_PATHS))
                  = map fst (filter (fun kv : str * str => contains (fst kv) line)
                                    LEGACY_PATHS)).
  { rewrite map_map. reflexivity. }
  split; [|split].
  - rewrite Hkeys. apply NoDup_map_filter, legacy_keys_NoDup.
  - rewrite length_map.
    exact (filter_length_le (fun kv : str * str => contains (fst kv) line) LEGACY_PATHS).
  - intros f Hf. apply in_map_iff in Hf. destruct Hf as (kv & <- & Hkv).
    apply filter_In in Hkv. cbn [fst snd]. tauto.
Qed.

(** A line that holds one legacy path three times. *)
Example legacy_key_three_times :
  scan_line Example.world Example.guide no_findings
    (1%nat, py "Views/SettingsView.swift Views/SettingsView.swift Views/SettingsView.swift")
  = Return
      {| in_code_block := false;
         missing_links := [];
         legacy_refs :=
           [ (Example.guide, 1%nat, py "Views/SettingsView.swift",
              py "Views/Settings/SettingsView.swift") ] |}.
Proof. vm_compute. reflexivity. Qed.

Lemma legacy_once_per_key_witness :
  exists added,
    [ (Example.guide, 1%nat, py "Views/SettingsView.swift",
       py "Views/Settings/SettingsView.swift") ]
    = legacy_refs no_findings ++ added
    /\ NoDup (map (fun f : LegacyRef => snd (fst f)) added)
    /\ (List.length added <= 4)%nat
    /\ forall f, In f added ->
         fst (fst (fst f)) = Example.guide /\ snd (fst (fst f)) = 1%nat
         /\ contains (snd (fst f))
              (py "Views/SettingsView.swift Views/SettingsView.swift Views/SettingsView.swift")
            = true.
Proof.
  apply (@legacy_once_per_key Example.world Example.guide no_findings
           {| in_code_block := false;
              missing_links := [];
              legacy_refs :=
                [ (Example.guide, 1%nat, py "Views/SettingsView.swift",
                   py "Views/Settings/SettingsView.swift") ] |}).
  vm_compute. reflexivity.
Defined.

(** ** More on the normalisation of a target *)

Lemma normalize_target_unfold (w : World) (target : str) :
  normalize_target w target
  = if is_empty (strip target) then None
    else normalize_unwrapped w (unwrap_angle (strip target)).
Proof.
  unfold normalize_target, normalize_unwrapped. cbv zeta.
  fold (unwrap_angle (strip target)). now rewrite split1_head_twice.
Qed.

(** X11: white space before and after a raw target does not change what
    [normalize_target] returns. *)
Theorem normalize_target_ignores_space (w : World) (ws1 target ws2 : str) :
  all_space ws1 -> all_space ws2 ->
  normalize_target w (ws1 ++ target ++ ws2) = normalize_target w target.
Proof.
  intros H1 H2. rewrite !normalize_target_unfold.
  now rewrite (@strip_space_around ws1 target ws2 H1 H2).
Qed.

Lemma normalize_target_ignores_space_witness :
  normalize_target Example.world (py "  " ++ py "Docs/guide.md#top" ++ [9%N])
  = normalize_target Example.world (py "Docs/guide.md#top").
Proof.
  apply (@normalize_target_ignores_space Example.world (py "  ")
           (py "Docs/guide.md#top") [9%N]);
    repeat constructor.
Defined.

Lemma dropWhile_app_stop (p : char -> bool) (l : str) (c : char) (r : str) :
  p c = false -> dropWhile p (l ++ c :: r) = dropWhile p l ++ c :: r.
Proof.
  intros Hc. induction l as [|a l IH]; cbn.
  - now rewrite Hc.
  - destruct (p a); [exact IH | reflexivity].
Qed.

Lemma lstrip_app_keep (t : str) (c : char) (r : str) :
  isspace c = false -> lstrip (t ++ c :: r) = lstrip t ++ c :: r.
Proof. intros Hc. unfold lstrip. now apply dropWhile_app_stop. Qed.

Lemma rstrip_app_keep (x : str) (c : char) (r : str) :
  isspace c = false -> rstrip (x ++ c :: r) = x ++ c :: rstrip r.
Proof.
  intros Hc. unfold rstrip. rewrite rev_app_distr. cbn [rev].
  rewrite <- app_assoc. cbn [app].
  rewrite (@dropWhile_app_stop isspace (rev r) c (rev x) Hc).
  rewrite rev_app_distr. cbn [rev]. rewrite rev_involutive, <- app_assoc.
  reflexivity.
Qed.

Lemma startswith_one (a y : char) (s : str) : startswith [a] (y :: s) = N.eqb a y.
Proof. cbn. apply andb_true_r. Qed.

Lemma space_passes_cut (c : char) :
  isspace c = true -> negb (N.eqb c (chr "#")) && negb (N.eqb c (chr "?")) = true.
Proof.
  intros H.
  destruct (N.eqb_spec c (chr "#")) as [-> | _]; [vm_compute in H; discriminate|].
  destruct (N.eqb_spec c (chr "?")) as [-> | _]; [vm_compute in H; discriminate|].
  reflexivity.
Qed.

(** Trailing white space does not change what is left of a target once its
    fragment and query are cut and the rest is trimmed. *)
Lemma cut_rstrip (s : str) :
  strip (cut_fragment_query s) = strip (cut_fragment_query (rstrip s)).
Proof.
  destruct (rstrip_decompose s) as (ws & Hws & Hs).
  rewrite Hs at 1. unfold cut_fragment_query.
  destruct (@takeWhile_app_all
              (fun c => negb (N.eqb c (chr "#")) && negb (N.eqb c (chr "?")))
              (rstrip s) ws) as [-> | ->].
  - apply Forall_forall. intros c Hc. apply space_passes_cut.
    unfold all_space in Hws. rewrite Forall_forall in Hws. now apply Hws.
  - reflexivity.
  - apply (@strip_space_around [] _ ws); [constructor | exact Hws].
Qed.

(** What the skipped prefixes are made of. *)
Lemma skip_prefix_chars (prefix : str) :
  In prefix SKIP_PREFIXES ->
  no_space prefix
  /\ Forall (fun a => a <> chr "#") prefix
  /\ Forall (fun a => a <> chr "?") prefix
  /\ exists a r, prefix = a :: r /\ a <> chr "<" /\ a <> chr "#"
                 /\ isspace a = false.
Proof.
  intros H. cbv in H.
  destruct H as [<- | [<- | [<- | [<- | [<- | []]]]]];
    (split; [repeat constructor|]);
    (split; [repeat (constructor; [discriminate|]); constructor|]);
    (split; [repeat (constructor; [discriminate|]); constructor|]);
    eexists; eexists; (split; [reflexivity|]);
    (split; [discriminate|]); (split; [discriminate | reflexivity]).
Qed.

Lemma existsb_same (A : Type) (f g : A -> bool) (l : list A) :
  (forall x, In x l -> f x = g x) -> existsb f l = existsb g l.
Proof.
  induction l as [|a l IH]; intros H; cbn; [reflexivity|].
  rewrite (H a (or_introl eq_refl)), IH; [reflexivity|].
  intros x Hx. apply H. now right.
Qed.

Lemma normalize_unwrapped_cut (w : World) (x : str) (c : char) (rest : str) :
  c = chr "#" \/ c = chr "?" ->
  x <> [] ->
  normalize_unwrapped w (x ++ c :: rest) = normalize_unwrapped w (rstrip x).
Proof.
  intros Hc Hx. unfold normalize_unwrapped. cbv zeta.
  assert (Hcsp : isspace c = false) by (destruct Hc as [-> | ->]; reflexivity).
  assert (Hhash : startswith (py "#") (x ++ c :: rest) = startswith (py "#") (rstrip x)).
  { rewrite startswith_rstrip by (repeat constructor).
    destruct x as [|y x]; [congruence|]. reflexivity. }
  assert (Hskip : existsb (fun prefix => startswith prefix (x ++ c :: rest)) SKIP_PREFIXES
                  = existsb (fun prefix => startswith prefix (rstrip x)) SKIP_PREFIXES).
  { apply existsb_same. intros prefix Hin.
    destruct (@skip_prefix_chars prefix Hin) as (Hns & Hh & Hq & _).
    rewrite (@startswith_rstrip prefix x Hns).
    apply startswith_app_other. now destruct Hc as [-> | ->]. }
  assert (Hcut : cut_fragment_query (x ++ c :: rest) = cut_fragment_query x).
  { unfold cut_fragment_query. apply takeWhile_app_stop_at.
    destruct Hc as [-> | ->]; reflexivity. }
  now rewrite Hhash, Hskip, Hcut, (cut_rstrip x).
Qed.

(** X12: a fragment or a query at the end of a raw target does not change
    what [normalize_target] returns, when the target does not open with an
    angle bracket: the text from the first [#] or [?] on is never looked
    at. *)
Theorem normalize_target_ignores_fragment (w : World) (target : str) (c : char)
    (rest : str) :
  c = chr "#" \/ c = chr "?" ->
  startswith (py "<") (lstrip target) = false ->
  normalize_target w (target ++ c :: rest) = normalize_target w target.
Proof.
  intros Hc Hangle.
  assert (Hcsp : isspace c = false) by (destruct Hc as [-> | ->]; reflexivity).
  rewrite !normalize_target_unfold. unfold strip.
  rewrite (@lstrip_app_keep target c rest Hcsp),
    (@rstrip_app_keep (lstrip target) c rest Hcsp).
  destruct (lstrip target) as [|y x] eqn:Hx.
  - cbn [app rstrip rev dropWhile is_empty].
    unfold unwrap_angle, normalize_unwrapped.
    destruct Hc as [-> | ->]; reflexivity.
  - pose proof (dropWhile_head _ _ Hx) as Hy.
    change (py "<") with [chr "<"] in Hangle. rewrite startswith_one in Hangle.
    rewrite (@rstrip_cons y x Hy). cbn [app is_empty].
    assert (HuL : unwrap_angle (y :: x ++ c :: rstrip rest) = y :: x ++ c :: rstrip rest).
    { unfold unwrap_angle. change (py "<") with [chr "<"].
      now rewrite startswith_one, Hangle. }
    assert (HuR : unwrap_angle (y :: rstrip x) = y :: rstrip x).
    { unfold unwrap_angle. change (py "<") with [chr "<"].
      now rewrite startswith_one, Hangle. }
    rewrite HuL, HuR, <- (@rstrip_cons y x Hy).
    apply (@normalize_unwrapped_cut w (y :: x) c (rstrip rest) Hc). discriminate.
Qed.

Lemma normalize_target_ignores_fragment_witness :
  normalize_target Example.world (py "Docs/my%20notes.md" ++ chr "#" :: py "intro?x")
  = normalize_target Example.world (py "Docs/my%20notes.md").
Proof.
  apply (@normalize_target_ignores_fragment Example.world (py "Docs/my%20notes.md")
           (chr "#") (py "intro?x")).
  - left. reflexivity.
  - reflexivity.
Defined.

Lemma startswith_app_true (pre a b : str) :
  startswith pre a = true -> startswith pre (a ++ b) = true.
Proof.
  revert a. induction pre as [|c pre IH]; intros a H; [now destruct a|].
  destruct a as [|y a]; [discriminate|]. cbn [app startswith] in *.
  apply andb_true_iff in H. destruct H as [-> H]. now rewrite (IH a H).
Qed.

Lemma existsb_false_In (A : Type) (f : A -> bool) (l : list A) (x : A) :
  existsb f l = false -> In x l -> f x = false.
Proof.
  intros H Hin. destruct (f x) eqn:Hx; [|reflexivity].
  assert (existsb f l = true) by (apply existsb_exists; eauto). congruence.
Qed.

(** X13: what [normalize_target] hands to [unquote] is never empty, has no
    white space at either end, holds no [#] and no [?], and does not start
    with a skipped prefix. *)
Theorem normalize_target_result_clean (w : World) (target result : str) :
  normalize_target w target = Some result ->
  exists s,
    result = unquote w s
    /\ s <> []
    /\ strip s = s
    /\ Forall (fun c => c <> chr "#" /\ c <> chr "?") s
    /\ forall prefix, In prefix SKIP_PREFIXES -> startswith prefix s = false.
Proof.
  rewrite normalize_target_unfold.
  destruct (is_empty (strip target)); [discriminate|].
  pose proof (unwrap_angle_head target) as Hhead.
  unfold normalize_unwrapped. cbv zeta.
  set (u := unwrap_angle (strip target)) in *.
  destruct (startswith (py "#") u); [discriminate|].
  destruct (existsb (fun prefix => startswith prefix u) SKIP_PREFIXES) eqn:Hskip;
    [discriminate|].
  destruct (strip (cut_fragment_query u)) as [|c0 s0] eqn:Hs; [discriminate|].
  cbn [is_empty]. intros H. inversion H; subst result. clear H.
  exists (c0 :: s0). split; [reflexivity|]. split; [discriminate|].
  split; [rewrite <- Hs; apply strip_idem|]. split.
  - rewrite <- Hs. apply strip_Forall. unfold cut_fragment_query.
    eapply Forall_impl; [|apply takeWhile_all].
    intros c Hc. apply andb_true_iff in Hc. destruct Hc as [H1 H2].
    apply negb_true_iff, N.eqb_neq in H1, H2. split; assumption.
  - intros prefix Hin.
    destruct (@skip_prefix_chars prefix Hin) as (Hns & _).
    pose proof (cut_fragment_query_head u Hhead) as Hcut.
    assert (Hrs : c0 :: s0 = rstrip (cut_fragment_query u)).
    { rewrite <- Hs. destruct (cut_fragment_query u) as [|c1 v]; [reflexivity|].
      now rewrite (@strip_cons c1 v Hcut), (@rstrip_cons c1 v Hcut). }
    rewrite Hrs, (@startswith_rstrip prefix (cut_fragment_query u) Hns).
    destruct (startswith prefix (cut_fragment_query u)) eqn:Hp; [|reflexivity].
    pose proof (existsb_false_In (fun prefix => startswith prefix u) _ prefix Hskip Hin)
      as Hu.
    cbv beta in Hu.
    rewrite <- (takeWhile_dropWhile
                  (fun c => negb (N.eqb c (chr "#")) && negb (N.eqb c (chr "?"))) u) in Hu.
    unfold cut_fragment_query in Hp.
    rewrite (startswith_app_true _ _ _ Hp) in Hu. discriminate.
Qed.

Lemma normalize_target_result_clean_witness :
  exists s,
    py "a b.md" = unquote Example.world s
    /\ s <> []
    /\ strip s = s
    /\ Forall (fun c => c <> chr "#" /\ c <> chr "?") s
    /\ forall prefix, In prefix SKIP_PREFIXES -> startswith prefix s = false.
Proof.
  apply (@normalize_target_result_clean Example.world (py " <a%20b.md#x?y> ")
           (py "a b.md")).
  vm_compute. reflexivity.
Defined.

Lemma normalize_unwrapped_prefix (w : World) (prefix u : str) :
  In prefix SKIP_PREFIXES -> startswith prefix u = true ->
  normalize_unwrapped w u = None.
Proof.
  intros Hin Hp. unfold normalize_unwrapped.
  destruct (startswith (py "#") u); [reflexivity|].
  assert (existsb (fun prefix => startswith prefix u) SKIP_PREFIXES = true) as ->
    by (apply existsb_exists; eauto).
  reflexivity.
Qed.

Lemma normalize_prefixed (w : World) (prefix rest : str) :
  In prefix SKIP_PREFIXES ->
  is_empty (strip (prefix ++ rest)) = false
  /\ unwrap_angle (strip (prefix ++ rest)) = strip (prefix ++ rest)
  /\ normalize_unwrapped w (strip (prefix ++ rest)) = None.
Proof.
  intros Hin.
  destruct (@skip_prefix_chars prefix Hin) as (Hns & _ & _ & a & r & -> & Ha & _ & Hsp).
  cbn [app]. rewrite (@strip_cons a (r ++ rest) Hsp). split; [reflexivity|].
  split.
  - unfold unwrap_angle. change (py "<") with [chr "<"]. rewrite startswith_one.
    destruct (N.eqb_spec (chr "<") a) as [<- | _]; [contradiction | reflexivity].
  - apply (@normalize_unwrapped_prefix w (a :: r) _ Hin).
    rewrite <- (@rstrip_cons a (r ++ rest) Hsp).
    rewrite (@startswith_rstrip (a :: r) (a :: r ++ rest) Hns).
    apply (startswith_app_refl (a :: r) rest).
Qed.

(** X14: a raw target that starts with one of the skipped prefixes is
    discarded whatever follows the prefix, also when white space surrounds
    it, and also when it stands in angle brackets, with or without white
    space inside them. *)
Theorem normalize_target_skips_prefix (w : World)
    (prefix rest ws1 ws2 ws3 ws4 : str) :
  In prefix SKIP_PREFIXES ->
  all_space ws1 -> all_space ws2 -> all_space ws3 -> all_space ws4 ->
  normalize_target w (ws1 ++ (prefix ++ rest) ++ ws2) = None
  /\ normalize_target w
       (ws1 ++ (chr "<" :: (ws3 ++ (prefix ++ rest) ++ ws4) ++ [chr ">"]) ++ ws2)
     = None.
Proof.
  intros Hin H1 H2 H3 H4.
  destruct (@normalize_prefixed w prefix rest Hin) as (Hne & Hsame & Hnone).
  split.
  - rewrite normalize_target_unfold, (@strip_space_around ws1 _ ws2 H1 H2).
    now rewrite Hne, Hsame.
  - rewrite normalize_target_unfold, (@strip_space_around ws1 _ ws2 H1 H2).
    set (inner := ws3 ++ (prefix ++ rest) ++ ws4).
    assert (Hstrip : strip (chr "<" :: inner ++ [chr ">"]) = chr "<" :: inner ++ [chr ">"]).
    { rewrite (@strip_cons (chr "<") (inner ++ [chr ">"]) eq_refl).
      now rewrite (@rstrip_app_keep inner (chr ">") [] eq_refl). }
    rewrite Hstrip. cbn [is_empty].
    assert (Hunwrap : unwrap_angle (chr "<" :: inner ++ [chr ">"]) = strip inner).
    { unfold unwrap_angle, endswith, slice_1_m1.
      change (py "<") with [chr "<"]. rewrite startswith_one, N.eqb_refl.
      cbn [rev tl]. rewrite rev_app_distr. cbn [rev app].
      change (rev (py ">")) with [chr ">"]. rewrite startswith_one, N.eqb_refl.
      cbn [andb]. now rewrite removelast_last. }
    rewrite Hunwrap. unfold inner.
    now rewrite (@strip_space_around ws3 _ ws4 H3 H4).
Qed.

Lemma normalize_target_skips_prefix_witness :
  normalize_target Example.world
    (py " " ++ (py "mailto:" ++ py "docs@example.com") ++ py " ") = None
  /\ normalize_target Example.world
       (py " " ++ (chr "<" :: ([9%N] ++ (py "mailto:" ++ py "docs@example.com") ++ py "  ")
                              ++ [chr ">"]) ++ py " ") = None.
Proof.
  apply (@normalize_target_skips_prefix Example.world (py "mailto:")
           (py "docs@example.com") (py " ") (py " ") [9%N] (py "  ")).
  - vm_compute. tauto.
  - repeat constructor.
  - repeat constructor.
  - repeat constructor.
  - repeat constructor.
Defined.

(** ** Targets rooted at the project *)

Lemma lstrip_chr_app (c : char) (cs s : str) :
  Forall (fun x => x = c) cs -> lstrip_chr c (cs ++ s) = lstrip_chr c s.
Proof.
  intros H. unfold lstrip_chr. apply dropWhile_app_all.
  eapply Forall_impl; [|exact H]. intros x ->. apply N.eqb_refl.
Qed.


(** X15: a target that starts with separators resolves, with no exception,
    below the project root, to the root joined with what follows the
    separators: how many separators there are and which document holds the
    link play no part, and [relative_to] the root gives back the parts of the
    target. *)
Theorem resolve_target_rooted (w : World) (base base' : Path)
    (slashes target : str) :
  slashes <> [] ->
  Forall (fun c => c = chr "/") slashes ->
  resolve_target w base (slashes ++ target)
  = Return (ROOT w ++ parse_parts (lstrip_chr (chr "/") target))
  /\ resolve_target w base (slashes ++ target)
     = resolve_target w base' (chr "/" :: target)
  /\ (forall candidate,
        resolve_target w base (slashes ++ target) = Return candidate ->
        relative_to candidate (ROOT w)
        = Some (parse_parts (lstrip_chr (chr "/") target))).
Proof.
  intros Hne Hall.
  assert (Hgen : forall b cs, cs <> [] -> Forall (fun c => c = chr "/") cs ->
            resolve_target w b (cs ++ target)
            = Return (ROOT w ++ parse_parts (lstrip_chr (chr "/") target))).
  { intros b cs Hcs Hsl. unfold resolve_target, truediv.
    destruct cs as [|c cs]; [congruence|].
    pose proof (Forall_inv Hsl) as Hc. cbv beta in Hc. subst c.
    change (py "/") with [chr "/"]. cbn [app]. rewrite startswith_one, N.eqb_refl.
    change (chr "/" :: cs ++ target) with ((chr "/" :: cs) ++ target).
    rewrite (@lstrip_chr_app (chr "/") (chr "/" :: cs) target Hsl).
    now rewrite lstrip_chr_not_startswith. }
  rewrite (Hgen base slashes Hne Hall).
  split; [reflexivity|]. split.
  - symmetry. apply (Hgen base' [chr "/"]); [discriminate | repeat constructor].
  - intros candidate H. inversion H. apply relative_to_app.
Qed.

Lemma resolve_target_rooted_witness :
  resolve_target Example.world [py "repo"; py "Docs"] (py "//" ++ py "Docs/guide.md")
  = Return Example.guide
  /\ resolve_target Example.world [py "repo"; py "Docs"] (py "//" ++ py "Docs/guide.md")
     = resolve_target Example.world [py "repo"] (chr "/" :: py "Docs/guide.md")
  /\ (forall candidate,
        resolve_target Example.world [py "repo"; py "Docs"]
          (py "//" ++ py "Docs/guide.md") = Return candidate ->
        relative_to candidate (ROOT Example.world)
        = Some [py "Docs"; py "guide.md"]).
Proof.
  refine (@resolve_target_rooted Example.world [py "repo"; py "Docs"] [py "repo"]
            (py "//") (py "Docs/guide.md") _ _).
  - discriminate.
  - repeat constructor.
Defined.
